(** * FlowCanvas: the node-graph canvas of GameStoryDesigner

    A shallow embedding of the pointer and wheel handlers of
    [components/FlowCanvas.tsx] and of the stores they mutate (positions,
    connections, view transform, selection), followed by the properties
    the design document states about them.

    Modelling conventions.
    - A JavaScript [number] is an exact rational ([Qc]); rounding of IEEE
      doubles is outside the model.
    - [Record<string, T>] is a plain object: its own entries are a finite
      map [gmap string T], and a read [obj[k]] of a key without an entry
      finds the member of [Object.prototype] of that name, if there is one
      ([inherited]).  The arrays [connections], [selectedNodeIds] and
      [puzzles] are lists, order and duplicates included.
    - The [useState] cells of the component are the fields of [CanvasState].
      A handler is a function from the state of the render it closes over
      to the state after its batched [setState] calls.
    - [onUpdate] calls are recorded, oldest first, in [emitted].
    - [Date.now()] and [containerRef.current?.getBoundingClientRect()] are
      read from the environment and are arguments of the handlers. *)

From Stdlib Require Import QArith Qcanon Field.
From stdpp Require Import gmap strings list fin_maps pretty.

Local Open Scope Qc_scope.

(** ** Numbers *)

Module Num.

(** An integer literal. *)
Definition int (z : Z) : Qc := Qc_of_Z z.

(** A decimal literal [n / d]. *)
Definition frac (n : Z) (d : positive) : Qc := Q2Qc (n # d).

(** [Math.min] and [Math.max]. *)
Definition Math_min (a b : Qc) : Qc := if decide (a < b) then a else b.
Definition Math_max (a b : Qc) : Qc := if decide (a < b) then b else a.

(** [a < b] and [a > b] as conditions. *)
Definition ltb (a b : Qc) : bool := bool_decide (a < b).
Definition gtb (a b : Qc) : bool := bool_decide (b < a).

End Num.

Import Num.

(** ** Data model (types.ts and the interfaces of FlowCanvas.tsx) *)

Record NodePosition := mkNodePosition { pos_x : Qc; pos_y : Qc }.

(** What an entry of the positions object holds: a position, or the object
    [{x: NaN, y: NaN}] that a drag writes when it computes with a value that
    has no coordinates. *)
Inductive PosValue :=
  | Numeric (p : NodePosition)
  | NaNPosition.

(** The property names of [Object.prototype].  A plain object answers a
    read of one of them with the inherited member (a function, or the
    prototype itself for [__proto__]): a truthy value without [x] and [y]. *)
Definition objectPrototypeMembers : list string :=
  ["constructor"; "hasOwnProperty"; "isPrototypeOf"; "propertyIsEnumerable";
   "toLocaleString"; "toString"; "valueOf"; "__proto__";
   "__defineGetter__"; "__defineSetter__"; "__lookupGetter__";
   "__lookupSetter__"].

Definition inherited (k : string) : bool :=
  bool_decide (k ∈ objectPrototypeMembers).

Record FlowConnection := mkFlowConnection {
  id : string;
  sourceId : string;
  targetId : string;
  label : option string   (* [label?: string] *)
}.

(** Of a puzzle the canvas logic reads the identifier (and, for search,
    the name). *)
Record PuzzleDefinition := mkPuzzle { pz_id : string; pz_name : string }.

Record DragLine := mkDragLine {
  dl_sourceId : string;
  dl_currentX : Qc;
  dl_currentY : Qc;
  isReconnectingId : option string   (* [isReconnectingId?: string] *)
}.

Record SelectionRect := mkSelectionRect {
  startX : Qc; startY : Qc; currentX : Qc; currentY : Qc
}.

Record Transform := mkTransform { tr_x : Qc; tr_y : Qc; scale : Qc }.

Record Point := mkPoint { pt_x : Qc; pt_y : Qc }.

(** What [getBoundingClientRect] returns. *)
Record DOMRect := mkDOMRect {
  left : Qc; top : Qc; width : Qc; height : Qc
}.

(** The fields of a mouse event that the handlers read.  [inSocket] and
    [inControls] are the outcomes of [e.target.closest('.socket')] and
    [e.target.closest('.controls')]. *)
Record MouseEvent := mkMouseEvent {
  button : Z;
  clientX : Qc;
  clientY : Qc;
  inSocket : bool;
  inControls : bool
}.

Record WheelEvent := mkWheelEvent {
  deltaY : Qc;
  wheelClientX : Qc;
  wheelClientY : Qc
}.

(** One call [onUpdate(positions, connections)]. *)
Definition Update : Type := gmap string PosValue * list FlowConnection.

Record CanvasState := mkCanvasState {
  positions : gmap string PosValue;
  connections : list FlowConnection;
  transform : Transform;
  isPanning : bool;
  lastMousePos : Point;
  selectedNodeIds : list string;
  selectionRect : option SelectionRect;
  draggingNodeId : option string;
  collapsedNodes : gmap string bool;
  dragLine : option DragLine;
  emitted : list Update
}.

(** The state a fresh component starts from ([useState] initialisers),
    given the persisted canvas state of the project. *)
Definition initialState (ps : gmap string PosValue)
    (cs : list FlowConnection) : CanvasState :=
  {| positions := ps;
     connections := cs;
     transform := mkTransform 0 0 1;
     isPanning := false;
     lastMousePos := mkPoint 0 0;
     selectedNodeIds := [];
     selectionRect := None;
     draggingNodeId := None;
     collapsedNodes := ∅;
     dragLine := None;
     emitted := [] |}.

(** *** State setters (one per [useState] cell) *)

Definition setPositions (v : gmap string PosValue) (st : CanvasState) :=
  mkCanvasState v (connections st) (transform st) (isPanning st)
    (lastMousePos st) (selectedNodeIds st) (selectionRect st)
    (draggingNodeId st) (collapsedNodes st) (dragLine st) (emitted st).

Definition setConnections (v : list FlowConnection) (st : CanvasState) :=
  mkCanvasState (positions st) v (transform st) (isPanning st)
    (lastMousePos st) (selectedNodeIds st) (selectionRect st)
    (draggingNodeId st) (collapsedNodes st) (dragLine st) (emitted st).

Definition setTransform (v : Transform) (st : CanvasState) :=
  mkCanvasState (positions st) (connections st) v (isPanning st)
    (lastMousePos st) (selectedNodeIds st) (selectionRect st)
    (draggingNodeId st) (collapsedNodes st) (dragLine st) (emitted st).

Definition setIsPanning (v : bool) (st : CanvasState) :=
  mkCanvasState (positions st) (connections st) (transform st) v
    (lastMousePos st) (selectedNodeIds st) (selectionRect st)
    (draggingNodeId st) (collapsedNodes st) (dragLine st) (emitted st).

Definition setLastMousePos (v : Point) (st : CanvasState) :=
  mkCanvasState (positions st) (connections st) (transform st) (isPanning st)
    v (selectedNodeIds st) (selectionRect st)
    (draggingNodeId st) (collapsedNodes st) (dragLine st) (emitted st).

Definition setSelectedNodeIds (v : list string) (st : CanvasState) :=
  mkCanvasState (positions st) (connections st) (transform st) (isPanning st)
    (lastMousePos st) v (selectionRect st)
    (draggingNodeId st) (collapsedNodes st) (dragLine st) (emitted st).

Definition setSelectionRect (v : option SelectionRect) (st : CanvasState) :=
  mkCanvasState (positions st) (connections st) (transform st) (isPanning st)
    (lastMousePos st) (selectedNodeIds st) v
    (draggingNodeId st) (collapsedNodes st) (dragLine st) (emitted st).

Definition setDraggingNodeId (v : option string) (st : CanvasState) :=
  mkCanvasState (positions st) (connections st) (transform st) (isPanning st)
    (lastMousePos st) (selectedNodeIds st) (selectionRect st)
    v (collapsedNodes st) (dragLine st) (emitted st).

Definition setCollapsedNodes (v : gmap string bool) (st : CanvasState) :=
  mkCanvasState (positions st) (connections st) (transform st) (isPanning st)
    (lastMousePos st) (selectedNodeIds st) (selectionRect st)
    (draggingNodeId st) v (dragLine st) (emitted st).

Definition setDragLine (v : option DragLine) (st : CanvasState) :=
  mkCanvasState (positions st) (connections st) (transform st) (isPanning st)
    (lastMousePos st) (selectedNodeIds st) (selectionRect st)
    (draggingNodeId st) (collapsedNodes st) v (emitted st).

(** [onUpdate(ps, cs)]: the callback receives the pair. *)
Definition onUpdate (ps : gmap string PosValue) (cs : list FlowConnection)
    (st : CanvasState) :=
  mkCanvasState (positions st) (connections st) (transform st) (isPanning st)
    (lastMousePos st) (selectedNodeIds st) (selectionRect st)
    (draggingNodeId st) (collapsedNodes st) (dragLine st)
    (emitted st ++ [(ps, cs)]).

(** *** JavaScript truthiness of the optional strings the handlers test

    [if (id)] on a [string | undefined | null] fails for an absent value
    and for the empty string. *)
Definition truthy (o : option string) : bool :=
  match o with
  | Some s => negb (String.eqb s "")
  | None => false
  end.

(** ** Coordinate transform

    The component has no named conversion functions: it writes
    [p * scale + pan] where it projects a node to the screen (marquee test,
    CSS transform of the canvas layer) and [(p - pan) / scale] where it
    reads a screen point back (wheel zoom, preview line).  The two
    expressions are named here and used by the handlers below. *)

Definition worldToScreen (t : Transform) (p : Point) : Point :=
  {| pt_x := pt_x p * scale t + tr_x t;
     pt_y := pt_y p * scale t + tr_y t |}.

Definition screenToWorld (t : Transform) (p : Point) : Point :=
  {| pt_x := (pt_x p - tr_x t) / scale t;
     pt_y := (pt_y p - tr_y t) / scale t |}.

(** ** Auto-placement (the [useEffect] over [puzzles]) *)

Definition gridPosition (idx : nat) : NodePosition :=
  {| pos_x := int 100 + int (Z.of_nat idx mod 3) * int 350;
     pos_y := int 100 + int (Z.of_nat idx / 3) * int 250 |}.

(** [!newPositions[id]]: the read is falsy when the object has no entry
    for [id] and inherits no member of that name. *)
Definition lacksPosition (m : gmap string PosValue) (k : string) : bool :=
  match m !! k with
  | Some _ => false
  | None => negb (inherited k)
  end.

(** The body of [puzzles.forEach((pz, idx) => ...)], started at index
    [idx]; the accumulator is [newPositions] and the flag [changed]. *)
Fixpoint placeMissing (idx : nat) (pzs : list PuzzleDefinition)
    (acc : gmap string PosValue * bool) : gmap string PosValue * bool :=
  match pzs with
  | [] => acc
  | pz :: rest =>
      placeMissing (S idx) rest
        (if lacksPosition acc.1 (pz_id pz)
         then (<[pz_id pz := Numeric (gridPosition idx)]> acc.1, true)
         else acc)
  end.

Definition ensurePositions (puzzles : list PuzzleDefinition)
    (st : CanvasState) : CanvasState :=
  let '(newPositions, changed) := placeMissing 0 puzzles (positions st, false) in
  if changed
  then onUpdate newPositions (connections st) (setPositions newPositions st)
  else st.

(** ** Pointer handlers *)

Definition eventPoint (e : MouseEvent) : Point :=
  {| pt_x := clientX e; pt_y := clientY e |}.

Definition handleMouseDown (rect : option DOMRect) (e : MouseEvent)
    (nodeId : option string) (st : CanvasState) : CanvasState :=
  if bool_decide (button e = 1%Z) then
    (* middle button: pan *)
    setLastMousePos (eventPoint e) (setIsPanning true st)
  else
    let onBackground :=
      match rect with
      | Some _ =>
          setSelectedNodeIds []
            (setSelectionRect
               (Some {| startX := clientX e; startY := clientY e;
                        currentX := clientX e; currentY := clientY e |}) st)
      | None => st
      end in
    match nodeId with
    | Some nid =>
        if truthy nodeId then
          if inSocket e then st
          else if inControls e then st
          else
            let st1 := setDraggingNodeId (Some nid) st in
            let st2 :=
              if bool_decide (nid ∈ selectedNodeIds st)
              then st1
              else setSelectedNodeIds [nid] st1 in
            setLastMousePos (eventPoint e) st2
        else onBackground
    | None => onBackground
    end.

(** The updater passed to [setPositions] during a node drag:
    [next = {...prev}], then [selectedNodeIds.forEach] with the callback
    [moveOne], which assigns to [next] when [prev[nodeId]] is truthy.
    - An entry with coordinates is moved.
    - An entry [{x: NaN, y: NaN}] is written again as such.
    - Without an entry, a name of [Object.prototype] reads as the inherited
      member: truthy, and its [x] and [y] are [undefined], so the entry
      written is [{x: NaN, y: NaN}].  For [__proto__] the assignment is
      taken by the prototype setter and creates no entry.
    - Any other name reads [undefined] and is skipped. *)
Definition moveOne (prev : gmap string PosValue) (dx dy s : Qc)
    (next : gmap string PosValue) (nodeId : string)
    : gmap string PosValue :=
  match prev !! nodeId with
  | Some (Numeric currentPos) =>
      <[nodeId := Numeric {| pos_x := pos_x currentPos + dx / s;
                             pos_y := pos_y currentPos + dy / s |}]> next
  | Some NaNPosition => <[nodeId := NaNPosition]> next
  | None =>
      if inherited nodeId then
        if String.eqb nodeId "__proto__" then next
        else <[nodeId := NaNPosition]> next
      else next
  end.

Definition moveSelected (prev : gmap string PosValue)
    (ids : list string) (dx dy s : Qc) : gmap string PosValue :=
  foldl (moveOne prev dx dy s) prev ids.

(** [collapsedNodes[id]] as a condition: the flag of the entry, and
    without an entry the truthiness of what the object inherits. *)
Definition isCollapsed (st : CanvasState) (nodeId : string) : bool :=
  match collapsedNodes st !! nodeId with
  | Some flag => flag
  | None => inherited nodeId
  end.

(** The predicate given to [puzzles.filter] while a marquee is dragged. *)
Definition marqueeHit (st : CanvasState) (rect : DOMRect)
    (newX1 newY1 newX2 newY2 : Qc) (pz : PuzzleDefinition) : bool :=
  match positions st !! pz_id pz with
  | None =>
      (* [undefined] returns false at [if (!pos)]; an inherited member has
         no [x], so [screenX] is NaN and the first comparison is false *)
      false
  | Some NaNPosition => false   (* every comparison with NaN is false *)
  | Some (Numeric pos) =>
      let t := transform st in
      let s := worldToScreen t {| pt_x := pos_x pos; pt_y := pos_y pos |} in
      let screenX := pt_x s + left rect in
      let screenY := pt_y s + top rect in
      let screenW := int 280 * scale t in
      let screenH :=
        (if isCollapsed st (pz_id pz) then int 100 else int 250) * scale t in
      ltb screenX newX2 && gtb (screenX + screenW) newX1
      && ltb screenY newY2 && gtb (screenY + screenH) newY1
  end.

Definition marqueeSelection (puzzles : list PuzzleDefinition)
    (st : CanvasState) (rect : DOMRect) (sr : SelectionRect)
    (e : MouseEvent) : list string :=
  let newX1 := Math_min (startX sr) (clientX e) in
  let newY1 := Math_min (startY sr) (clientY e) in
  let newX2 := Math_max (startX sr) (clientX e) in
  let newY2 := Math_max (startY sr) (clientY e) in
  map pz_id (List.filter (marqueeHit st rect newX1 newY1 newX2 newY2) puzzles).

Definition handleMouseMove (puzzles : list PuzzleDefinition)
    (rect : option DOMRect) (e : MouseEvent) (st : CanvasState) : CanvasState :=
  let dx := clientX e - pt_x (lastMousePos st) in
  let dy := clientY e - pt_y (lastMousePos st) in
  let t := transform st in
  let st1 :=
    if isPanning st then
      setTransform {| tr_x := tr_x t + dx; tr_y := tr_y t + dy;
                      scale := scale t |} st
    else if truthy (draggingNodeId st) then
      setPositions
        (moveSelected (positions st) (selectedNodeIds st) dx dy (scale t)) st
    else
      match selectionRect st with
      | Some sr =>
          let st' :=
            setSelectionRect
              (Some {| startX := startX sr; startY := startY sr;
                       currentX := clientX e; currentY := clientY e |}) st in
          match rect with
          | Some r => setSelectedNodeIds (marqueeSelection puzzles st r sr e) st'
          | None => st'
          end
      | None => st
      end in
  let st2 :=
    match dragLine st with
    | Some dl =>
        setDragLine
          (Some {| dl_sourceId := dl_sourceId dl;
                   dl_currentX := clientX e; dl_currentY := clientY e;
                   isReconnectingId := isReconnectingId dl |}) st1
    | None => st1
    end in
  setLastMousePos (eventPoint e) st2.

(** ** Connection store *)

(** [c => c.id !== id] *)
Definition otherId (cid : string) (c : FlowConnection) : bool :=
  negb (String.eqb (id c) cid).

Definition removeConnection (cid : string) (st : CanvasState) : CanvasState :=
  let newConns := List.filter (otherId cid) (connections st) in
  onUpdate (positions st) newConns (setConnections newConns st).

(** [c => c.id === id ? { ...c, label } : c] *)
Definition relabelIf (cid lbl : string) (c : FlowConnection) : FlowConnection :=
  if String.eqb (id c) cid
  then {| id := id c; sourceId := sourceId c;
          targetId := targetId c; label := Some lbl |}
  else c.

Definition updateConnectionLabel (cid : string) (lbl : string)
    (st : CanvasState) : CanvasState :=
  let newConns := map (relabelIf cid lbl) (connections st) in
  onUpdate (positions st) newConns (setConnections newConns st).

(** [`conn-${Date.now()}`] *)
Definition connectionId (now : N) : string := "conn-" +:+ pretty now.

Definition handleSocketMouseDown (e : MouseEvent) (nodeId : string)
    (isOutput : bool) (st : CanvasState) : CanvasState :=
  if isOutput then
    setDragLine
      (Some {| dl_sourceId := nodeId;
               dl_currentX := clientX e; dl_currentY := clientY e;
               isReconnectingId := None |}) st
  else st.

(** [c => c.sourceId === sourceId && c.targetId === targetId] *)
Definition samePair (src tgt : string) (c : FlowConnection) : bool :=
  String.eqb (sourceId c) src && String.eqb (targetId c) tgt.

Definition handleSocketMouseUp (now : N) (nodeId : string) (isInput : bool)
    (st : CanvasState) : CanvasState :=
  match dragLine st with
  | Some dl =>
      if isInput && negb (String.eqb (dl_sourceId dl) nodeId) then
        let src := dl_sourceId dl in
        let tgt := nodeId in
        let exists_ := existsb (samePair src tgt) (connections st) in
        let st1 :=
          if exists_ then st
          else
            let newConn :=
              {| id := connectionId now; sourceId := src;
                 targetId := tgt; label := Some "" |} in
            let newConns := connections st ++ [newConn] in
            onUpdate (positions st) newConns (setConnections newConns st) in
        setDragLine None st1
      else st
  | None => st
  end.

Definition handleUnplugMouseDown (e : MouseEvent) (conn : FlowConnection)
    (st : CanvasState) : CanvasState :=
  setDragLine
    (Some {| dl_sourceId := sourceId conn;
             dl_currentX := clientX e; dl_currentY := clientY e;
             isReconnectingId := Some (id conn) |}) st.

(** [handleMouseUp] reads [positions] and [connections] of the render it
    closes over; the updates queued before [removeConnection] touch neither,
    so threading the state through is the same. *)
Definition handleMouseUp (st : CanvasState) : CanvasState :=
  let st1 := if isPanning st then setIsPanning false st else st in
  let st2 :=
    if truthy (draggingNodeId st)
    then onUpdate (positions st) (connections st) (setDraggingNodeId None st1)
    else st1 in
  let st3 :=
    match selectionRect st with
    | Some _ => setSelectionRect None st2
    | None => st2
    end in
  match dragLine st with
  | Some dl =>
      let st4 :=
        match isReconnectingId dl with
        | Some cid => if truthy (Some cid) then removeConnection cid st3 else st3
        | None => st3
        end in
      setDragLine None st4
  | None => st3
  end.

(** Where the pointer is released.  The input socket is the only element
    with a [mouseup] handler of its own, and that handler stops the
    propagation; a release anywhere else reaches the container's
    [onMouseUp] (as does leaving the container). *)
Inductive ReleaseTarget :=
  | OverCanvas
  | OverInputSocket (nodeId : string).

Definition mouseUp (now : N) (target : ReleaseTarget) (st : CanvasState)
    : CanvasState :=
  match target with
  | OverCanvas => handleMouseUp st
  | OverInputSocket nodeId => handleSocketMouseUp now nodeId true st
  end.

(** ** Collapse toggle *)

(** [{ ...prev, [id]: !prev[id] }] *)
Definition toggleCollapse (nodeId : string) (st : CanvasState) : CanvasState :=
  setCollapsedNodes
    (<[nodeId := negb (isCollapsed st nodeId)]> (collapsedNodes st)) st.

(** ** Wheel zoom *)

Definition zoomSpeed : Qc := frac 1 1000.

Definition handleWheel (rect : option DOMRect) (e : WheelEvent)
    (st : CanvasState) : CanvasState :=
  let t := transform st in
  let delta := Qcopp (deltaY e) * zoomSpeed in
  let newScale := Math_min (Math_max (scale t + delta) (frac 1 10)) (int 5) in
  match rect with
  | Some rect =>
      let mouseX := wheelClientX e - left rect in
      let mouseY := wheelClientY e - top rect in
      let canvas := screenToWorld t {| pt_x := mouseX; pt_y := mouseY |} in
      let nextX := mouseX - pt_x canvas * newScale in
      let nextY := mouseY - pt_y canvas * newScale in
      setTransform {| tr_x := nextX; tr_y := nextY; scale := newScale |} st
  | None => st
  end.

(** ** Definitions the statements below are phrased with *)

(** [clamp v lo hi] as the design document writes it. *)
Definition clamp (v lo hi : Qc) : Qc :=
  if decide (v < lo) then lo else if decide (hi < v) then hi else v.

(** A valid zoom factor. *)
Definition validScale (s : Qc) : Prop := frac 1 10 <= s /\ s <= int 5.

(** How many connections carry the ordered pair [(a, b)]. *)
Definition pairCount (a b : string) (cs : list FlowConnection) : nat :=
  length (List.filter (samePair a b) cs).

(** The screen-space box of a node card, as the marquee test projects it:
    left edge, top edge, width and height in client coordinates. *)
Definition screenBox (st : CanvasState) (rect : DOMRect) (nid : string)
    (pos : NodePosition) : Qc * Qc * Qc * Qc :=
  let t := transform st in
  (pos_x pos * scale t + tr_x t + left rect,
   pos_y pos * scale t + tr_y t + top rect,
   int 280 * scale t,
   (if isCollapsed st nid then int 100 else int 250) * scale t).

(** The interaction mode a pointer move is interpreted in: the first
    branch of [handleMouseMove] whose test succeeds. *)
Definition nodeDragActive (st : CanvasState) : Prop :=
  isPanning st = false /\ truthy (draggingNodeId st) = true.

Definition marqueeActive (st : CanvasState) (sr : SelectionRect) : Prop :=
  isPanning st = false /\ truthy (draggingNodeId st) = false
  /\ selectionRect st = Some sr.

(** A position moved by a world-space offset. *)
Definition translate (wx wy : Qc) (p : NodePosition) : NodePosition :=
  {| pos_x := pos_x p + wx; pos_y := pos_y p + wy |}.

(** What a drag move by a world-space offset makes of an entry: NaN plus
    an offset is NaN. *)
Definition shiftValue (wx wy : Qc) (v : PosValue) : PosValue :=
  match v with
  | Numeric p => Numeric (translate wx wy p)
  | NaNPosition => NaNPosition
  end.

(** What a drag move by a world-space offset leaves under a selected key
    [k], given the entries [prev] it reads; [fallback] is what the copy
    being written holds there. *)
Definition movedEntry (prev : gmap string PosValue) (wx wy : Qc)
    (k : string) (fallback : option PosValue) : option PosValue :=
  match prev !! k with
  | Some v => Some (shiftValue wx wy v)
  | None =>
      if inherited k && negb (String.eqb k "__proto__")
      then Some NaNPosition else fallback
  end.

(** The node list of the end-to-end placement scenario. *)
Definition threeNodes : list PuzzleDefinition :=
  [mkPuzzle "n1" "first"; mkPuzzle "n2" "second"; mkPuzzle "n3" "third"].

(** ** Sample states and events used by the examples *)

(** Three placed nodes, ["a"] and ["b"] selected, a drag of ["a"] under
    way at zoom factor 2 with the pointer last seen at (100, 100). *)
Definition dragSample : CanvasState :=
  {| positions := <["a" := Numeric (mkNodePosition (int 0) (int 0))]>
                    (<["b" := Numeric (mkNodePosition (int 300) (int 40))]>
                       (<["c" := Numeric (mkNodePosition (int 50) (int 500))]> ∅));
     connections := [];
     transform := mkTransform (int 0) (int 0) (int 2);
     isPanning := false;
     lastMousePos := mkPoint (int 100) (int 100);
     selectedNodeIds := ["a"; "b"; "ghost"];
     selectionRect := None;
     draggingNodeId := Some "a";
     collapsedNodes := ∅;
     dragLine := None;
     emitted := [] |}.

(** A left-button event at the given client coordinates, on no socket
    and no control. *)
Definition leftButtonAt (cx cy : Z) : MouseEvent :=
  {| button := 0; clientX := int cx; clientY := int cy;
     inSocket := false; inControls := false |}.

(** A marquee anchored at (50, 50) over four placed nodes, at the default
    view: ["A"] will lie inside the rectangle dragged to (500, 400), ["B"]
    across its border, ["C"] away from it; ["D"] is collapsed and ends
    above it, where an expanded card would reach into it.  ["C"] and ["D"]
    are selected before the move. *)
Definition marqueeSample : CanvasState :=
  {| positions := <["A" := Numeric (mkNodePosition (int 100) (int 100))]>
                    (<["B" := Numeric (mkNodePosition (int 450) (int 300))]>
                       (<["C" := Numeric (mkNodePosition (int 900) (int 900))]>
                          (<["D" := Numeric (mkNodePosition (int 200) (int (-80)))]> ∅)));
     connections := [];
     transform := mkTransform 0 0 1;
     isPanning := false;
     lastMousePos := mkPoint (int 50) (int 50);
     selectedNodeIds := ["C"; "D"];
     selectionRect := Some (mkSelectionRect (int 50) (int 50) (int 50) (int 50));
     draggingNodeId := None;
     collapsedNodes := {["D" := true]};
     dragLine := None;
     emitted := [] |}.

Definition marqueeNodes : list PuzzleDefinition :=
  [mkPuzzle "A" "inside"; mkPuzzle "B" "across"; mkPuzzle "C" "outside";
   mkPuzzle "D" "collapsed"; mkPuzzle "E" "unplaced"].

Definition originRect : DOMRect := mkDOMRect 0 0 (int 1280) (int 720).

(** A connection with its label replaced, as [{ ...c, label }] builds it. *)
Definition withLabel (lbl : string) (c : FlowConnection) : FlowConnection :=
  {| id := id c; sourceId := sourceId c; targetId := targetId c;
     label := Some lbl |}.

(** The connection a completed drag from [a] to [b] appends. *)
Definition newConnection (now : N) (a b : string) : FlowConnection :=
  {| id := connectionId now; sourceId := a; targetId := b; label := Some "" |}.

(** Two stored connections and a canvas holding them. *)
Definition connOpens : FlowConnection :=
  {| id := "conn-1"; sourceId := "n1"; targetId := "n2"; label := Some "opens" |}.

Definition connLeads : FlowConnection :=
  {| id := "conn-2"; sourceId := "n2"; targetId := "n3"; label := None |}.

Definition wiredSample : CanvasState := initialState ∅ [connOpens; connLeads].

(** The same canvas after the unplug handle of [connOpens] was pressed. *)
Definition unpluggedSample : CanvasState :=
  handleUnplugMouseDown (leftButtonAt 300 140) connOpens wiredSample.

(** ** Further parts of the component *)

(** *** Where a press lands

    Four elements listen for [mousedown]: the container, every node card,
    the output socket of a card and the unplug handle of a connection.  The
    last two stop the propagation at once.  The input socket and the
    controls of a card have no listener of their own: a press there is
    first seen by the card. *)
Inductive PressTarget :=
  | OnBackground
  | OnCardBody (nodeId : string)
  | OnControls (nodeId : string)
  | OnInputSocket (nodeId : string)
  | OnOutputSocket (nodeId : string)
  | OnUnplugHandle (conn : FlowConnection).

(** The event of a press: [closest('.socket')] and [closest('.controls')]
    are decided by the element pressed. *)
Definition pressEvent (btn : Z) (x y : Qc) (target : PressTarget) : MouseEvent :=
  {| button := btn; clientX := x; clientY := y;
     inSocket := match target with
                 | OnInputSocket _ | OnOutputSocket _ => true
                 | _ => false
                 end;
     inControls := match target with
                   | OnControls _ => true
                   | _ => false
                   end |}.

(** Whether [handleMouseDown(e, id)] reaches its [e.stopPropagation()]. *)
Definition stopsPropagation (e : MouseEvent) (nodeId : option string) : bool :=
  negb (bool_decide (button e = 1%Z)) && truthy nodeId
  && negb (inSocket e) && negb (inControls e).

(** A press seen by the card of node [nodeId]: the card's listener runs,
    and unless it stopped the propagation the event bubbles to the
    container, which calls [handleMouseDown(e)] without an identifier. *)
Definition cardMouseDown (rect : option DOMRect) (e : MouseEvent)
    (nodeId : string) (st : CanvasState) : CanvasState :=
  let st1 := handleMouseDown rect e (Some nodeId) st in
  if stopsPropagation e (Some nodeId) then st1
  else handleMouseDown rect e None st1.

(** A press with button [btn] at [(x, y)] on [target]. *)
Definition mouseDown (rect : option DOMRect) (btn : Z) (x y : Qc)
    (target : PressTarget) (st : CanvasState) : CanvasState :=
  let e := pressEvent btn x y target in
  match target with
  | OnBackground => handleMouseDown rect e None st
  | OnCardBody nodeId | OnControls nodeId | OnInputSocket nodeId =>
      cardMouseDown rect e nodeId st
  | OnOutputSocket nodeId => handleSocketMouseDown e nodeId true st
  | OnUnplugHandle conn => handleUnplugMouseDown e conn st
  end.

(** A run of pointer moves, oldest first. *)
Definition mouseMoves (puzzles : list PuzzleDefinition) (rect : option DOMRect)
    (es : list MouseEvent) (st : CanvasState) : CanvasState :=
  foldl (λ acc e, handleMouseMove puzzles rect e acc) st es.

(** *** Invariants of the connection list *)

Definition connPair (c : FlowConnection) : string * string :=
  (sourceId c, targetId c).

Definition pairsDistinct (cs : list FlowConnection) : Prop :=
  NoDup (map connPair cs).

Definition noSelfLoop (cs : list FlowConnection) : Prop :=
  Forall (λ c, sourceId c <> targetId c) cs.


(** ** Custom attribute values (quick-edit panel of the canvas)

    [CustomAttributeValue.value] is typed [any]; the editors store a
    string, a number or an array of strings in it. *)

Inductive AttrValue :=
  | VText (s : string)
  | VNumber (q : Qc)
  | VItems (l : list string).

Record CustomAttributeValue := mkAttributeValue {
  attributeId : string;
  value : AttrValue
}.

(** [Array.isArray(v) ? v : []] *)
Definition asItems (v : AttrValue) : list string :=
  match v with
  | VItems l => l
  | _ => []
  end.

(** [values.find(v => v.attributeId === attrId)] with its index. *)
Definition findAttribute (attrId : string) (values : list CustomAttributeValue)
    : option (nat * CustomAttributeValue) :=
  list_find (λ v, attributeId v = attrId) values.

(** What all four editors do with the new content [v] of attribute
    [attrId]: copy [pz.customAttributeValues || []], overwrite the value of
    the first entry of that attribute, or push a new entry.  The result is
    the [customAttributeValues] handed to [onUpdatePuzzle]; that the
    overwrite goes through the entry object the copy shares with the old
    array is not part of it. *)
Definition setAttributeValue (attrId : string) (v : AttrValue)
    (stored : option (list CustomAttributeValue)) : list CustomAttributeValue :=
  let customAttributeValues := default [] stored in
  match findAttribute attrId customAttributeValues with
  | Some (idx, _) =>
      alter (λ o, {| attributeId := attributeId o; value := v |}) idx
            customAttributeValues
  | None =>
      customAttributeValues ++ [{| attributeId := attrId; value := v |}]
  end.

(** The content an editor shows for an attribute that has an entry. *)
Definition attributeValue (attrId : string)
    (stored : option (list CustomAttributeValue)) : option AttrValue :=
  (λ found, value found.2) <$> findAttribute attrId (default [] stored).

(** [arr.includes(opt) ? arr.filter(i => i !== opt) : [...arr, opt]] *)
Definition toggleOption (opt : string) (currentArr : list string) : list string :=
  if bool_decide (opt ∈ currentArr)
  then List.filter (λ i, negb (String.eqb i opt)) currentArr
  else currentArr ++ [opt].

(** A click on option [opt] of a select attribute. *)
Definition selectOptionClicked (attrId opt : string)
    (stored : option (list CustomAttributeValue)) : list CustomAttributeValue :=
  let val := default (VItems []) (attributeValue attrId stored) in
  let currentArr := asItems val in
  let nextArr := toggleOption opt currentArr in
  setAttributeValue attrId (VItems nextArr) stored.

(** *** Uploaded images

    One choice of files starts a reader per file, and every
    [reader.onloadend] works on the [pz] the change handler was called
    with.  The entries of [customAttributeValues] are objects: an array
    holds references to them, [[...array]] copies the references, and
    [values[idx].value = ...] writes to the object, which every array
    holding the reference sees.  A store [gmap nat CustomAttributeValue]
    maps a reference to the object it names. *)

(** The entries an array of references holds. *)
Definition entriesOf (h : gmap nat CustomAttributeValue) (refs : list nat)
    : list CustomAttributeValue :=
  omap (λ r, h !! r) refs.

(** [values.findIndex(v => v.attributeId === attrId)], with the reference
    at that index. *)
Definition findEntry (attrId : string) (h : gmap nat CustomAttributeValue) (refs : list nat)
    : option (nat * nat) :=
  list_find (λ r, attributeId <$> h !! r = Some attrId) refs.

(** The entry objects, and the [customAttributeValues] of every
    [onUpdatePuzzle] call so far, oldest first. *)
Record UploadState := mkUploadState {
  entryStore : gmap nat CustomAttributeValue;
  updatesSent : list (list nat)
}.

(** [reader.onloadend] for one file read as [base64]; [captured] is
    [pz.customAttributeValues] of the [pz] the handler closed over. *)
Definition attrImageLoaded (attrId base64 : string)
    (captured : option (list nat)) (u : UploadState) : UploadState :=
  let h := entryStore u in
  let values := default [] captured in
  match findEntry attrId h values with
  | Some (idx, r) =>
      let currentImages := default [] (asItems ∘ value <$> h !! r) in
      {| entryStore :=
           alter (λ o, {| attributeId := attributeId o;
                          value := VItems (currentImages ++ [base64]) |}) r h;
         updatesSent := updatesSent u ++ [values] |}
  | None =>
      let r := fresh (dom h) in
      {| entryStore :=
           <[r := {| attributeId := attrId; value := VItems [base64] |}]> h;
         updatesSent := updatesSent u ++ [values ++ [r]] |}
  end.

(** [handleAttrImageUpload(e, pz, attrId)]: [files] is [e.target.files],
    given as what the readers deliver, in the order in which their
    [onloadend] callbacks run. *)
Definition handleAttrImageUpload (files : option (list string))
    (captured : option (list nat)) (attrId : string) (u : UploadState)
    : UploadState :=
  match files with
  | None => u
  | Some loaded =>
      foldl (λ acc base64, attrImageLoaded attrId base64 captured acc) u loaded
  end.

(** The [customAttributeValues] of the puzzle the shell holds after the
    updates: those of the last call. *)
Definition storedAfter (u : UploadState) : option (list CustomAttributeValue) :=
  entriesOf (entryStore u) <$> last (updatesSent u).

(** ** The application shell (App.tsx)

    The shell owns the projects, gives the canvas its node list and stores
    what the canvas hands to [onUpdate].  Of a node type it reads the
    identifier and the name; a puzzle is the record the canvas sees. *)

Record NodeTypeConfig := mkNodeType { nt_id : string; nt_name : string }.

Record Chapter := mkChapter {
  ch_id : string;
  ch_name : string;
  ch_description : string;
  ch_puzzles : list PuzzleDefinition
}.

Record CanvasSnapshot := mkCanvasSnapshot {
  saved_positions : gmap string PosValue;
  saved_connections : list FlowConnection
}.

Record Project := mkProject {
  proj_id : string;
  proj_name : string;
  backgroundStory : string;
  narrativeArc : string;
  chapters : list Chapter;
  nodeTypes : list NodeTypeConfig;
  canvasState : option CanvasSnapshot   (* [canvasState?] *)
}.

Record TemplateLibrary := mkTemplate {
  tpl_id : string;
  tpl_name : string;
  tpl_puzzle : PuzzleDefinition
}.

Inductive View :=
  | ViewWelcome | ViewProject | ViewChapter | ViewPuzzle
  | ViewLibrary | ViewTemplateEdit | ViewCanvas.

Global Instance View_eq_dec : EqDecision View.
Proof. solve_decision. Defined.

(** The [useState] cells of [App]; [storage] is what [localStorage] holds
    under the storage key, before serialisation. *)
Record AppState := mkAppState {
  projects : list Project;
  templates : list TemplateLibrary;
  activeProjectId : option string;
  activeChapterId : option string;
  activePuzzleId : option string;
  activeTemplateId : option string;
  view : View;
  storage : option (list Project * list TemplateLibrary)
}.

Definition saveToStorage (newProjects : list Project)
    (newTemplates : list TemplateLibrary) (st : AppState) : AppState :=
  {| projects := newProjects;
     templates := newTemplates;
     activeProjectId := activeProjectId st;
     activeChapterId := activeChapterId st;
     activePuzzleId := activePuzzleId st;
     activeTemplateId := activeTemplateId st;
     view := view st;
     storage := Some (newProjects, newTemplates) |}.

Definition withChapters (p : Project) (chs : list Chapter) : Project :=
  {| proj_id := proj_id p; proj_name := proj_name p;
     backgroundStory := backgroundStory p; narrativeArc := narrativeArc p;
     chapters := chs; nodeTypes := nodeTypes p; canvasState := canvasState p |}.

Definition withPuzzles (ch : Chapter) (pzs : list PuzzleDefinition) : Chapter :=
  {| ch_id := ch_id ch; ch_name := ch_name ch;
     ch_description := ch_description ch; ch_puzzles := pzs |}.

Definition withCanvasState (p : Project) (snapshot : CanvasSnapshot) : Project :=
  {| proj_id := proj_id p; proj_name := proj_name p;
     backgroundStory := backgroundStory p; narrativeArc := narrativeArc p;
     chapters := chapters p; nodeTypes := nodeTypes p;
     canvasState := Some snapshot |}.

(** [projects.find(p => p.id === activeProjectId) || null] *)
Definition currentProject (st : AppState) : option Project :=
  snd <$> list_find (λ p, Some (proj_id p) = activeProjectId st) (projects st).

(** The node list of the canvas: [project.chapters.flatMap(ch => ch.puzzles)]. *)
Definition canvasPuzzles (p : Project) : list PuzzleDefinition :=
  flat_map ch_puzzles (chapters p).

(** The state [FlowCanvas] mounts with:
    [project.canvasState?.positions || {}] and
    [project.canvasState?.connections || []]. *)
Definition openCanvas (p : Project) : CanvasState :=
  initialState
    (match canvasState p with Some s => saved_positions s | None => ∅ end)
    (match canvasState p with Some s => saved_connections s | None => [] end).

Definition handleUpdateCanvas (projectId : string)
    (ps : gmap string PosValue) (cs : list FlowConnection)
    (st : AppState) : AppState :=
  let updated :=
    map (λ p, if String.eqb (proj_id p) projectId
              then withCanvasState p (mkCanvasSnapshot ps cs)
              else p)
        (projects st) in
  saveToStorage updated (templates st) st.

(** [pz => pz.id === updatedPuzzle.id ? updatedPuzzle : pz] *)
Definition replacePuzzle (updatedPuzzle pz : PuzzleDefinition) : PuzzleDefinition :=
  if String.eqb (pz_id pz) (pz_id updatedPuzzle) then updatedPuzzle else pz.

Definition handleUpdatePuzzle (updatedPuzzle : PuzzleDefinition)
    (st : AppState) : AppState :=
  if bool_decide (view st = ViewTemplateEdit) && truthy (activeTemplateId st) then
    let updatedTemplates :=
      map (λ t, if bool_decide (Some (tpl_id t) = activeTemplateId st)
                then {| tpl_id := tpl_id t; tpl_name := tpl_name t;
                        tpl_puzzle := updatedPuzzle |}
                else t)
          (templates st) in
    saveToStorage (projects st) updatedTemplates st
  else if negb (truthy (activeProjectId st)) then st
  else
    let updated :=
      map (λ p, if bool_decide (Some (proj_id p) = activeProjectId st)
                then withChapters p
                       (map (λ ch, withPuzzles ch
                                     (map (replacePuzzle updatedPuzzle)
                                          (ch_puzzles ch)))
                            (chapters p))
                else p)
          (projects st) in
    saveToStorage updated (templates st) st.

(** [item => item.id !== puzzleId] *)
Definition otherPuzzle (puzzleId : string) (item : PuzzleDefinition) : bool :=
  negb (String.eqb (pz_id item) puzzleId).

(** [ch.puzzles.find(item => item.id === puzzleId)] *)
Definition findPuzzle (puzzleId : string) (ch : Chapter) : option PuzzleDefinition :=
  snd <$> list_find (λ item, pz_id item = puzzleId) (ch_puzzles ch).

(** [puzzleToMove] after the first pass: the assignment made for the last
    chapter, in project and chapter order, that holds the puzzle. *)
Definition puzzleToMove (puzzleId : string) (ps : list Project)
    : option PuzzleDefinition :=
  last (omap (findPuzzle puzzleId) (flat_map chapters ps)).

Definition handleMovePuzzle (puzzleId targetChapterId : string)
    (st : AppState) : AppState :=
  let updatedProjects :=
    map (λ p, withChapters p
                (map (λ ch, withPuzzles ch
                              (List.filter (otherPuzzle puzzleId) (ch_puzzles ch)))
                     (chapters p)))
        (projects st) in
  match puzzleToMove puzzleId (projects st) with
  | None => st
  | Some moved =>
      let finalProjects :=
        map (λ p, withChapters p
                    (map (λ ch, if String.eqb (ch_id ch) targetChapterId
                                then withPuzzles ch (ch_puzzles ch ++ [moved])
                                else ch)
                         (chapters p)))
            updatedProjects in
      saveToStorage finalProjects (templates st) st
  end.

(** [`pz-${Date.now()}`] *)
Definition puzzleId (now : N) : string := "pz-" +:+ pretty now.

(** [chapterId || p.chapters[0]?.id], [None] where the result is falsy. *)
Definition targetChapter (chapterId : option string) (p : Project) : option string :=
  if truthy chapterId then chapterId
  else
    match chapters p with
    | ch :: _ => if truthy (Some (ch_id ch)) then Some (ch_id ch) else None
    | [] => None
    end.

(** The projects after a puzzle was appended to the target chapter of
    project [projectId]. *)
Definition appendPuzzle (projectId : string) (chapterId : option string)
    (newPuzzle : PuzzleDefinition) (ps : list Project) : list Project :=
  map (λ p, if String.eqb (proj_id p) projectId then
              match targetChapter chapterId p with
              | None => p
              | Some targetChapterId =>
                  withChapters p
                    (map (λ ch, if String.eqb (ch_id ch) targetChapterId
                                then withPuzzles ch (ch_puzzles ch ++ [newPuzzle])
                                else ch)
                         (chapters p))
              end
            else p)
      ps.

(** [handleNewPuzzle(projectId, chapterId?, typeId = 'type-puzzle')];
    the result carries the identifier it returns.  The new puzzle starts
    with empty content; its name is built from the node type. *)
Definition handleNewPuzzle (now : N) (projectId : string)
    (chapterId : option string) (typeId : option string)
    (st : AppState) : AppState * string :=
  let typeId := default "type-puzzle" typeId in
  let proj := snd <$> list_find (λ p, proj_id p = projectId) (projects st) in
  let nodeType :=
    match proj with
    | Some p =>
        match list_find (λ t, nt_id t = typeId) (nodeTypes p) with
        | Some (_, t) => Some t
        | None => head (nodeTypes p)
        end
    | None => None
    end in
  let typeName :=
    match nodeType with
    | Some t => if truthy (Some (nt_name t)) then nt_name t else "节点"
    | None => "节点"
    end in
  let newPuzzle := {| pz_id := puzzleId now; pz_name := "新" +:+ typeName |} in
  let updated := appendPuzzle projectId chapterId newPuzzle (projects st) in
  let st1 := saveToStorage updated (templates st) st in
  let st2 :=
    if bool_decide (view st <> ViewCanvas) then
      {| projects := projects st1; templates := templates st1;
         activeProjectId := activeProjectId st1;
         activeChapterId := activeChapterId st1;
         activePuzzleId := Some (pz_id newPuzzle);
         activeTemplateId := activeTemplateId st1;
         view := ViewPuzzle; storage := storage st1 |}
    else st1 in
  (st2, pz_id newPuzzle).

(** The canvas callbacks as [App] wires them for the project on screen. *)
Definition persistUpdates (projectId : string) (updates : list Update)
    (st : AppState) : AppState :=
  foldl (λ acc u, handleUpdateCanvas projectId u.1 u.2 acc) st updates.

(** *** A sample application state *)

Definition chapterOne : Chapter :=
  mkChapter "ch-1" "Act one" "" [mkPuzzle "n1" "first"; mkPuzzle "n2" "second"].

Definition chapterTwo : Chapter :=
  mkChapter "ch-2" "Act two" "" [mkPuzzle "n3" "third"].

Definition sampleProject : Project :=
  mkProject "proj-1" "Demo" "" "" [chapterOne; chapterTwo]
    [mkNodeType "type-puzzle" "Puzzle"; mkNodeType "type-narrative" "Story"]
    None.

Definition emptyProject : Project :=
  mkProject "proj-2" "Empty" "" "" [] [] None.

(** The canvas of [sampleProject] is on screen. *)
Definition sampleApp : AppState :=
  {| projects := [sampleProject; emptyProject];
     templates := [];
     activeProjectId := Some "proj-1";
     activeChapterId := None;
     activePuzzleId := None;
     activeTemplateId := None;
     view := ViewCanvas;
     storage := None |}.

(** * Properties *)

(** ** Arithmetic helpers *)

Section NumFacts.

Lemma Math_max_lub a b : a <= Math_max a b /\ b <= Math_max a b.
Proof.
  unfold Math_max. destruct (decide (a < b)) as [H|H].
  - split; [by apply Qclt_le_weak | apply Qcle_refl].
  - split; [apply Qcle_refl | by apply Qcnot_lt_le].
Qed.

Lemma Math_min_glb a b : Math_min a b <= a /\ Math_min a b <= b.
Proof.
  unfold Math_min. destruct (decide (a < b)) as [H|H].
  - split; [apply Qcle_refl | by apply Qclt_le_weak].
  - split; [by apply Qcnot_lt_le | apply Qcle_refl].
Qed.

(** [Math.min(Math.max(v, lo), hi)] is the clamp of [v] to [lo, hi]. *)
Lemma min_max_clamp v lo hi :
  lo <= hi -> Math_min (Math_max v lo) hi = clamp v lo hi.
Proof.
  intros Hlh. unfold Math_min, Math_max, clamp.
  destruct (decide (v < lo)) as [H1|H1].
  - destruct (decide (lo < hi)) as [H2|H2]; [done|].
    apply Qcle_antisym; [by apply Qcnot_lt_le | done].
  - destruct (decide (v < hi)) as [H2|H2].
    + destruct (decide (hi < v)) as [H3|H3]; [|done].
      exfalso. exact (Qclt_not_le _ _ H3 (Qclt_le_weak _ _ H2)).
    + destruct (decide (hi < v)) as [H3|H3]; [done|].
      apply Qcle_antisym; by apply Qcnot_lt_le.
Qed.

Lemma clamp_bounds v lo hi : lo <= hi -> lo <= clamp v lo hi /\ clamp v lo hi <= hi.
Proof.
  intros Hlh. unfold clamp.
  destruct (decide (v < lo)) as [H1|H1]; [split; [apply Qcle_refl | done]|].
  destruct (decide (hi < v)) as [H2|H2]; [split; [done | apply Qcle_refl]|].
  split; by apply Qcnot_lt_le.
Qed.

Lemma tenth_le_five : frac 1 10 <= int 5.
Proof. by vm_compute. Qed.

Lemma validScale_nonzero s : validScale s -> s <> 0.
Proof.
  intros [Hlo _] ->. revert Hlo. apply Qclt_not_le. by vm_compute.
Qed.

Lemma ltb_true a b : ltb a b = true <-> a < b.
Proof. unfold ltb. apply bool_decide_eq_true. Qed.

Lemma gtb_true a b : gtb a b = true <-> b < a.
Proof. unfold gtb. apply bool_decide_eq_true. Qed.

End NumFacts.

(** ** Coordinate transform *)

Lemma worldToScreen_screenToWorld t p :
  scale t <> 0 -> worldToScreen t (screenToWorld t p) = p.
Proof.
  intros Hs. destruct p as [px py]. unfold worldToScreen, screenToWorld; simpl.
  f_equal; field; exact Hs.
Qed.

Lemma worldToScreen_inj t p q :
  scale t <> 0 -> worldToScreen t p = worldToScreen t q -> p = q.
Proof.
  intros Hs Heq. destruct p as [px py], q as [qx qy].
  pose proof (f_equal pt_x Heq) as Hx. pose proof (f_equal pt_y Heq) as Hy.
  cbn [worldToScreen pt_x pt_y] in Hx, Hy.
  assert (Hc : forall a b c : Qc, a * scale t + c = b * scale t + c -> a = b).
  { intros a b c H.
    assert (Ha : a = (a * scale t + c - c) / scale t) by (field; exact Hs).
    rewrite Ha, H. field; exact Hs. }
  f_equal; [exact (Hc _ _ _ Hx) | exact (Hc _ _ _ Hy)].
Qed.

(** C5.  Under exact arithmetic, projecting a world point to the screen and
    reading it back gives the same point, for every pan and every zoom
    factor in [0.1, 5]. *)
Theorem screenToWorld_worldToScreen (t : Transform) (p : Point) :
  validScale (scale t) ->
  worldToScreen t p = {| pt_x := pt_x p * scale t + tr_x t;
                         pt_y := pt_y p * scale t + tr_y t |}
  /\ (forall q, screenToWorld t q = {| pt_x := (pt_x q - tr_x t) / scale t;
                                       pt_y := (pt_y q - tr_y t) / scale t |})
  /\ screenToWorld t (worldToScreen t p) = p.
Proof.
  intros Hv. apply validScale_nonzero in Hv.
  split; [reflexivity|]. split; [reflexivity|].
  destruct p as [px py]. unfold worldToScreen, screenToWorld; simpl.
  f_equal; field; exact Hv.
Qed.

Lemma screenToWorld_worldToScreen_witness :
  screenToWorld (mkTransform (int 30) (int (-20)) (frac 1 4))
    (worldToScreen (mkTransform (int 30) (int (-20)) (frac 1 4))
       (mkPoint (int 7) (frac 22 7)))
  = mkPoint (int 7) (frac 22 7).
Proof.
  apply (screenToWorld_worldToScreen
           (mkTransform (int 30) (int (-20)) (frac 1 4))
           (mkPoint (int 7) (frac 22 7))).
  split; by vm_compute.
Defined.

(** ** Wheel zoom *)

(** C4.  A wheel event over the container sets the zoom factor to
    [clamp(scale + delta * zoomSpeed, 0.1, 5)], where [delta] is the
    negated wheel [deltaY], and moves the pan to
    [m - (m - pan) / scale * newScale]; the world point that was under the
    cursor [m] is under it again afterwards. *)
Theorem handleWheel_anchored (st : CanvasState) (rect : DOMRect) (e : WheelEvent) :
  validScale (scale (transform st)) ->
  let t := transform st in
  let t' := transform (handleWheel (Some rect) e st) in
  let m := {| pt_x := wheelClientX e - left rect;
              pt_y := wheelClientY e - top rect |} in
  let delta := Qcopp (deltaY e) in
  scale t' = clamp (scale t + delta * zoomSpeed) (frac 1 10) (int 5)
  /\ validScale (scale t')
  /\ tr_x t' = pt_x m - (pt_x m - tr_x t) / scale t * scale t'
  /\ tr_y t' = pt_y m - (pt_y m - tr_y t) / scale t * scale t'
  /\ (forall w, worldToScreen t w = m -> worldToScreen t' w = m).
Proof.
  intros Hv t t' m delta.
  assert (Hs : scale t' = clamp (scale t + delta * zoomSpeed) (frac 1 10) (int 5)).
  { subst t' delta. cbn [handleWheel transform setTransform scale].
    apply min_max_clamp, tenth_le_five. }
  split; [exact Hs|].
  split; [rewrite Hs; apply clamp_bounds, tenth_le_five|].
  split; [reflexivity|]. split; [reflexivity|].
  intros w Hw.
  assert (Hnz : scale t <> 0) by (apply validScale_nonzero; exact Hv).
  assert (Hw' : w = screenToWorld t m).
  { apply (worldToScreen_inj t); [exact Hnz|].
    rewrite worldToScreen_screenToWorld; done. }
  subst w t' m.
  cbn [handleWheel transform setTransform]. fold t.
  unfold worldToScreen, screenToWorld. cbn [pt_x pt_y tr_x tr_y scale].
  f_equal; field; exact Hnz.
Qed.

Lemma handleWheel_anchored_witness :
  let st := initialState ∅ [] in
  let rect := mkDOMRect (int 10) (int 20) (int 800) (int 600) in
  let e := mkWheelEvent (int (-100)) (int 410) (int 320) in
  scale (transform (handleWheel (Some rect) e st)) = frac 11 10.
Proof.
  intros st rect e.
  destruct (handleWheel_anchored st rect e) as [Hs _].
  - split; by vm_compute.
  - rewrite Hs. apply Qc_is_canon. by vm_compute.
Defined.

(** ** Auto-placement *)

Section Placement.

Implicit Types (m : gmap string PosValue) (pzs : list PuzzleDefinition).

Lemma lacksPosition_true m k :
  lacksPosition m k = true <-> m !! k = None /\ inherited k = false.
Proof.
  unfold lacksPosition. destruct (m !! k); [split; [done|by intros [? _]]|].
  rewrite negb_true_iff. split; [done|by intros [_ ?]].
Qed.

Lemma lacksPosition_false m k :
  lacksPosition m k = false <-> is_Some (m !! k) \/ inherited k = true.
Proof.
  unfold lacksPosition. destruct (m !! k) as [v|].
  - split; [by left; exists v|done].
  - rewrite negb_false_iff. split; [by right|].
    intros [[v Hv]|H]; [done|exact H].
Qed.

Lemma placeMissing_keeps pzs : forall idx m b k p,
  m !! k = Some p -> (placeMissing idx pzs (m, b)).1 !! k = Some p.
Proof.
  induction pzs as [|pz rest IH]; intros idx m b k p Hk; [exact Hk|].
  cbn [placeMissing fst].
  destruct (lacksPosition m (pz_id pz)) eqn:Hl; [|by apply IH].
  apply lacksPosition_true in Hl as [Hq _].
  apply IH. rewrite lookup_insert_ne; [exact Hk|].
  intros Heq. rewrite Heq in Hq. congruence.
Qed.

Lemma placeMissing_untouched pzs : forall idx m b k,
  k ∉ map pz_id pzs -> (placeMissing idx pzs (m, b)).1 !! k = m !! k.
Proof.
  induction pzs as [|pz rest IH]; intros idx m b k Hk; [reflexivity|].
  cbn [placeMissing fst]. cbn [map] in Hk.
  apply not_elem_of_cons in Hk as [Hne Hk].
  destruct (lacksPosition m (pz_id pz)); rewrite IH by exact Hk; [|done].
  by rewrite lookup_insert_ne.
Qed.

(** An identifier that names a member of [Object.prototype] and has no
    entry reads as truthy in every round of the loop: it is never placed. *)
Lemma placeMissing_skips_inherited pzs : forall idx m b k,
  m !! k = None -> inherited k = true ->
  (placeMissing idx pzs (m, b)).1 !! k = None.
Proof.
  induction pzs as [|pz rest IH]; intros idx m b k Hk Hinh; [exact Hk|].
  cbn [placeMissing fst].
  destruct (lacksPosition m (pz_id pz)) eqn:Hl; [|by apply IH].
  apply lacksPosition_true in Hl as [_ Hl].
  apply IH; [|exact Hinh]. rewrite lookup_insert_ne; [exact Hk|].
  intros Heq. rewrite Heq in Hl. congruence.
Qed.

Lemma placeMissing_covers pzs : forall idx m b pz,
  pz ∈ pzs -> inherited (pz_id pz) = false ->
  is_Some ((placeMissing idx pzs (m, b)).1 !! pz_id pz).
Proof.
  induction pzs as [|pz0 rest IH]; intros idx m b pz Hin Hinh.
  - by apply elem_of_nil in Hin.
  - cbn [placeMissing fst].
    apply elem_of_cons in Hin as [->|Hin];
      [|destruct (lacksPosition m (pz_id pz0)); by apply IH].
    destruct (lacksPosition m (pz_id pz0)) eqn:Hl.
    + exists (Numeric (gridPosition idx)). apply placeMissing_keeps.
      by rewrite lookup_insert_eq.
    + apply lacksPosition_false in Hl as [[q Hq]|Hl]; [|congruence].
      exists q. by apply placeMissing_keeps.
Qed.


(** The flag [changed] is raised exactly when an entry was written. *)
Lemma placeMissing_unchanged pzs : forall idx m,
  (placeMissing idx pzs (m, false)).2 = false ->
  (placeMissing idx pzs (m, false)).1 = m.
Proof.
  assert (Hflag : forall pzs idx m, (placeMissing idx pzs (m, true)).2 = true).
  { clear. induction pzs as [|pz rest IH]; intros idx m; [done|].
    cbn [placeMissing fst]. destruct (lacksPosition m (pz_id pz)); apply IH. }
  induction pzs as [|pz rest IH]; intros idx m; [done|].
  cbn [placeMissing fst]. destruct (lacksPosition m (pz_id pz)).
  - rewrite Hflag. discriminate.
  - apply IH.
Qed.

Lemma ensurePositions_positions pzs st :
  positions (ensurePositions pzs st)
  = (placeMissing 0 pzs (positions st, false)).1.
Proof.
  unfold ensurePositions.
  destruct (placeMissing 0 pzs (positions st, false)) as [newPositions changed] eqn:E.
  destruct changed; [reflexivity|].
  cbn [fst]. symmetry.
  pose proof (placeMissing_unchanged pzs 0 (positions st)) as H.
  rewrite E in H. by apply H.
Qed.


(** The pass leaves a listed identifier that names a member of
    [Object.prototype] without an entry. *)
Lemma ensurePositions_skips_inherited pzs st k :
  positions st !! k = None -> inherited k = true ->
  positions (ensurePositions pzs st) !! k = None.
Proof.
  intros Hk Hinh. rewrite ensurePositions_positions.
  by apply placeMissing_skips_inherited.
Qed.

End Placement.



(** ** Node drag *)

Section NodeDrag.

Variables (prev : gmap string PosValue) (dx dy s : Qc).

Lemma moveOne_lookup_eq next nid :
  moveOne prev dx dy s next nid !! nid
  = movedEntry prev (dx / s) (dy / s) nid (next !! nid).
Proof.
  unfold moveOne, movedEntry.
  destruct (prev !! nid) as [[p|]|]; [by rewrite lookup_insert_eq..|].
  destruct (inherited nid); [|done].
  destruct (String.eqb nid "__proto__"); [done|].
  by rewrite lookup_insert_eq.
Qed.

Lemma moveOne_lookup_ne next nid k :
  k <> nid -> moveOne prev dx dy s next nid !! k = next !! k.
Proof.
  intros Hne. unfold moveOne.
  destruct (prev !! nid) as [[p|]|]; [by rewrite lookup_insert_ne..|].
  destruct (inherited nid); [|done].
  destruct (String.eqb nid "__proto__"); [done|].
  by rewrite lookup_insert_ne.
Qed.

Lemma movedEntry_twice k fallback :
  movedEntry prev (dx / s) (dy / s) k
    (movedEntry prev (dx / s) (dy / s) k fallback)
  = movedEntry prev (dx / s) (dy / s) k fallback.
Proof.
  unfold movedEntry. destruct (prev !! k); [done|].
  by destruct (inherited k && negb (String.eqb k "__proto__")).
Qed.

Lemma foldl_step_lookup (ids : list string) : forall next k,
  foldl (moveOne prev dx dy s) next ids !! k
  = if bool_decide (k ∈ ids)
    then movedEntry prev (dx / s) (dy / s) k (next !! k)
    else next !! k.
Proof.
  induction ids as [|nid rest IH]; intros next k; [done|].
  cbn [foldl]. rewrite IH.
  destruct (decide (k = nid)) as [->|Hne].
  - rewrite (bool_decide_eq_true_2 (nid ∈ nid :: rest)) by apply list_elem_of_here.
    rewrite moveOne_lookup_eq.
    destruct (bool_decide (nid ∈ rest)); [apply movedEntry_twice|done].
  - assert (Hiff : bool_decide (k ∈ nid :: rest) = bool_decide (k ∈ rest)).
    { apply bool_decide_ext. rewrite elem_of_cons.
      split; [intros [?|?]; [congruence|done] | by right]. }
    by rewrite Hiff, moveOne_lookup_ne.
Qed.

Lemma moveSelected_lookup (ids : list string) (k : string) :
  moveSelected prev ids dx dy s !! k
  = if bool_decide (k ∈ ids)
    then movedEntry prev (dx / s) (dy / s) k None
    else prev !! k.
Proof.
  unfold moveSelected. rewrite foldl_step_lookup.
  destruct (bool_decide (k ∈ ids)); [|done].
  unfold movedEntry. by destruct (prev !! k).
Qed.



End NodeDrag.

Lemma nodeDrag_positions puzzles rect e st :
  nodeDragActive st ->
  positions (handleMouseMove puzzles rect e st)
  = moveSelected (positions st) (selectedNodeIds st)
      (clientX e - pt_x (lastMousePos st))
      (clientY e - pt_y (lastMousePos st))
      (scale (transform st)).
Proof.
  intros [Hpan Hdrag]. unfold handleMouseMove. rewrite Hpan, Hdrag.
  by destruct (dragLine st).
Qed.

(** A selected identifier that names a member of [Object.prototype] other
    than [__proto__] and has no entry reads as a truthy value without
    coordinates: the move writes [{x: NaN, y: NaN}] under it. *)
Lemma nodeDrag_inherited puzzles rect e st k :
  nodeDragActive st ->
  k ∈ selectedNodeIds st ->
  positions st !! k = None ->
  inherited k = true -> k <> "__proto__" ->
  positions (handleMouseMove puzzles rect e st) !! k = Some NaNPosition.
Proof.
  intros Hact Hin Hk Hinh Hne. rewrite (nodeDrag_positions _ _ _ _ Hact).
  rewrite moveSelected_lookup, bool_decide_eq_true_2 by exact Hin.
  unfold movedEntry. rewrite Hk, Hinh.
  apply String.eqb_neq in Hne. by rewrite Hne.
Qed.

(** C7.  On a pointer move of an active node drag with screen delta
    [(dx, dy)], every selected identifier that has a position is moved by
    exactly [(dx / scale, dy / scale)], and the position of every
    identifier outside the selection is what it was.  (An entry without
    coordinates stays one.) *)
Theorem nodeDrag_frame (puzzles : list PuzzleDefinition) (rect : option DOMRect)
    (e : MouseEvent) (st : CanvasState) :
  nodeDragActive st ->
  let dx := clientX e - pt_x (lastMousePos st) in
  let dy := clientY e - pt_y (lastMousePos st) in
  let sc := scale (transform st) in
  let st' := handleMouseMove puzzles rect e st in
  (forall k p,
      k ∈ selectedNodeIds st ->
      positions st !! k = Some (Numeric p) ->
      positions st' !! k
      = Some (Numeric
                {| pos_x := pos_x p + dx / sc; pos_y := pos_y p + dy / sc |}))
  /\ (forall k, k ∉ selectedNodeIds st -> positions st' !! k = positions st !! k)
  /\ (forall k,
        k ∈ selectedNodeIds st ->
        positions st !! k = Some NaNPosition ->
        positions st' !! k = Some NaNPosition).
Proof.
  intros Hact dx dy sc st'. subst st'.
  rewrite (nodeDrag_positions _ _ _ _ Hact). fold dx dy sc.
  split; [|split].
  - intros k p Hin Hk. rewrite moveSelected_lookup.
    rewrite bool_decide_eq_true_2 by exact Hin.
    unfold movedEntry. by rewrite Hk.
  - intros k Hout. rewrite moveSelected_lookup.
    by rewrite bool_decide_eq_false_2 by exact Hout.
  - intros k Hin Hk. rewrite moveSelected_lookup.
    rewrite bool_decide_eq_true_2 by exact Hin.
    unfold movedEntry. by rewrite Hk.
Qed.


Lemma nodeDrag_frame_witness :
  positions (handleMouseMove [] None (leftButtonAt 120 140) dragSample) !! "b"
  = Some (Numeric (mkNodePosition (int 310) (int 60)))
  /\ positions (handleMouseMove [] None (leftButtonAt 120 140) dragSample) !! "c"
     = Some (Numeric (mkNodePosition (int 50) (int 500))).
Proof.
  assert (Hact : nodeDragActive dragSample) by (split; reflexivity).
  destruct (nodeDrag_frame [] None (leftButtonAt 120 140) dragSample Hact)
    as (Hsel & Hout & _).
  split.
  - rewrite (Hsel "b" (mkNodePosition (int 300) (int 40)));
      [ | apply list_elem_of_further, list_elem_of_here | reflexivity ].
    do 3 f_equal; apply Qc_is_canon; reflexivity.
  - rewrite (Hout "c"); [reflexivity|].
    apply (bool_decide_unpack _). by vm_compute.
Defined.


(** ** Selection by click *)

(** C8.  A press on a node body (not on a socket or a control, and not
    with the pan button) selects exactly that node when it was not selected,
    and keeps the whole selection when it was; either way the node drag
    starts. *)
Theorem handleMouseDown_select (rect : option DOMRect) (e : MouseEvent)
    (nid : string) (st : CanvasState) :
  nid <> "" ->
  button e <> 1%Z ->
  inSocket e = false ->
  inControls e = false ->
  let st' := handleMouseDown rect e (Some nid) st in
  (nid ∉ selectedNodeIds st -> selectedNodeIds st' = [nid])
  /\ (nid ∈ selectedNodeIds st -> selectedNodeIds st' = selectedNodeIds st)
  /\ draggingNodeId st' = Some nid.
Proof.
  intros Hnid Hbtn Hsock Hctl st'. subst st'. unfold handleMouseDown.
  rewrite bool_decide_eq_false_2 by exact Hbtn.
  assert (Ht : truthy (Some nid) = true).
  { unfold truthy. apply negb_true_iff, String.eqb_neq, Hnid. }
  rewrite Ht, Hsock, Hctl.
  repeat split.
  - intros Hout. by rewrite bool_decide_eq_false_2 by exact Hout.
  - intros Hin. by rewrite bool_decide_eq_true_2 by exact Hin.
  - by destruct (bool_decide (nid ∈ selectedNodeIds st)).
Qed.

Lemma handleMouseDown_select_witness :
  selectedNodeIds (handleMouseDown None (leftButtonAt 5 5) (Some "c") dragSample)
  = ["c"]
  /\ selectedNodeIds (handleMouseDown None (leftButtonAt 5 5) (Some "b") dragSample)
     = ["a"; "b"; "ghost"].
Proof.
  split.
  - apply (handleMouseDown_select None (leftButtonAt 5 5) "c" dragSample);
      try done.
    apply (bool_decide_unpack _). by vm_compute.
  - apply (handleMouseDown_select None (leftButtonAt 5 5) "b" dragSample);
      try done.
    apply (bool_decide_unpack _). by vm_compute.
Defined.

(** ** Marquee selection *)

Lemma marqueeHit_overlap st rect x1 y1 x2 y2 pz :
  marqueeHit st rect x1 y1 x2 y2 pz = true
  <-> exists pos,
        positions st !! pz_id pz = Some (Numeric pos)
        /\ let '(screenX, screenY, screenW, screenH) :=
               screenBox st rect (pz_id pz) pos in
           screenX < x2 /\ x1 < screenX + screenW
           /\ screenY < y2 /\ y1 < screenY + screenH.
Proof.
  unfold marqueeHit, screenBox, worldToScreen. cbn [pt_x pt_y].
  destruct (positions st !! pz_id pz) as [[pos|]|].
  - rewrite !andb_true_iff, !ltb_true, !gtb_true. split.
    + intros [[[H1 H2] H3] H4]. exists pos.
      exact (conj eq_refl (conj H1 (conj H2 (conj H3 H4)))).
    + intros (pos' & [= <-] & H1 & H2 & H3 & H4).
      exact (conj (conj (conj H1 H2) H3) H4).
  - split; [done|]. by intros (pos & ? & _).
  - split; [done|]. by intros (pos & ? & _).
Qed.

Lemma marquee_selected puzzles rect e st sr :
  marqueeActive st sr ->
  selectedNodeIds (handleMouseMove puzzles (Some rect) e st)
  = marqueeSelection puzzles st rect sr e.
Proof.
  intros (Hpan & Hdrag & Hsr). unfold handleMouseMove.
  rewrite Hpan, Hdrag, Hsr. by destruct (dragLine st).
Qed.

(** C6.  On a pointer move of an active marquee drag the selection becomes
    the list of nodes whose projected card (280 wide, 100 or 250 high by
    collapsed state, both scaled) meets the rectangle spanned by the anchor
    and the pointer under the strict overlap test; what was selected before
    plays no part.  A node inside and a node across the border are selected,
    a node outside is not. *)
Theorem marquee_replaces_selection (puzzles : list PuzzleDefinition)
    (rect : DOMRect) (e : MouseEvent) (st : CanvasState) (sr : SelectionRect) :
  marqueeActive st sr ->
  let st' := handleMouseMove puzzles (Some rect) e st in
  let rectLeft := Math_min (startX sr) (clientX e) in
  let rectTop := Math_min (startY sr) (clientY e) in
  let rectRight := Math_max (startX sr) (clientX e) in
  let rectBottom := Math_max (startY sr) (clientY e) in
  (forall nid,
      nid ∈ selectedNodeIds st'
      <-> exists pz pos,
            pz ∈ puzzles /\ pz_id pz = nid
            /\ positions st !! nid = Some (Numeric pos)
            /\ let '(screenX, screenY, screenW, screenH) :=
                   screenBox st rect nid pos in
               screenX < rectRight /\ rectLeft < screenX + screenW
               /\ screenY < rectBottom /\ rectTop < screenY + screenH)
  /\ (forall old,
        selectedNodeIds
          (handleMouseMove puzzles (Some rect) e (setSelectedNodeIds old st))
        = selectedNodeIds st')
  /\ selectedNodeIds
       (handleMouseMove marqueeNodes (Some originRect) (leftButtonAt 500 400)
          marqueeSample)
     = ["A"; "B"].
Proof.
  intros Hact st' rectLeft rectTop rectRight rectBottom. subst st'.
  rewrite (marquee_selected _ _ _ _ _ Hact).
  split; [|split].
  - intros nid. unfold marqueeSelection.
    fold rectLeft rectTop rectRight rectBottom.
    rewrite list_elem_of_fmap. split.
    + intros (pz & -> & Hin).
      apply list_elem_of_In, filter_In in Hin as [Hin Hhit].
      apply marqueeHit_overlap in Hhit as (pos & Hpos & Hbox).
      exists pz, pos. split; [by apply list_elem_of_In|].
      split; [done|]. split; [done|]. exact Hbox.
    + intros (pz & pos & Hin & <- & Hpos & Hbox).
      exists pz. split; [done|].
      apply list_elem_of_In, filter_In. split; [by apply list_elem_of_In|].
      apply marqueeHit_overlap. by exists pos.
  - intros old.
    assert (Hact' : marqueeActive (setSelectedNodeIds old st) sr) by exact Hact.
    by rewrite (marquee_selected _ _ _ _ _ Hact').
  - by vm_compute.
Qed.

Lemma marquee_replaces_selection_witness :
  "D" ∉ selectedNodeIds
          (handleMouseMove marqueeNodes (Some originRect) (leftButtonAt 500 400)
             marqueeSample).
Proof.
  assert (Hact : marqueeActive marqueeSample
                   (mkSelectionRect (int 50) (int 50) (int 50) (int 50)))
    by (repeat split; reflexivity).
  destruct (marquee_replaces_selection marqueeNodes originRect
              (leftButtonAt 500 400) marqueeSample _ Hact) as (_ & _ & Hsel).
  rewrite Hsel. apply (bool_decide_unpack _). by vm_compute.
Defined.

(** ** Connection store: remove and relabel *)

Section RemoveRelabel.

Variables (cid lbl : string).

Lemma keep_true c : otherId cid c = true <-> id c <> cid.
Proof. unfold otherId. rewrite negb_true_iff. apply String.eqb_neq. Qed.

Lemma filter_keep_absent (cs : list FlowConnection) :
  (forall c, c ∈ cs -> id c <> cid) -> List.filter (otherId cid) cs = cs.
Proof.
  induction cs as [|c cs IH]; intros Habs; [done|].
  cbn [List.filter].
  assert (Hc : otherId cid c = true) by (apply keep_true, Habs, list_elem_of_here).
  rewrite Hc. f_equal. apply IH. intros c' Hin.
  by apply Habs, list_elem_of_further.
Qed.

Lemma map_relabel_absent (cs : list FlowConnection) :
  (forall c, c ∈ cs -> id c <> cid) -> map (relabelIf cid lbl) cs = cs.
Proof.
  induction cs as [|c cs IH]; intros Habs; [done|].
  cbn [map]. f_equal.
  - unfold relabelIf.
    assert (Hc : String.eqb (id c) cid = false)
      by (apply String.eqb_neq, Habs, list_elem_of_here).
    by rewrite Hc.
  - apply IH. intros c' Hin. by apply Habs, list_elem_of_further.
Qed.

Lemma removeConnection_connections st :
  connections (removeConnection cid st) = List.filter (otherId cid) (connections st).
Proof. reflexivity. Qed.

Lemma updateConnectionLabel_connections st :
  connections (updateConnectionLabel cid lbl st) = map (relabelIf cid lbl) (connections st).
Proof. reflexivity. Qed.

(** C9.  For an identifier no connection carries, [removeConnection] and
    [updateConnectionLabel] leave the connection list as it is.  For an
    identifier that exactly one connection carries, [removeConnection]
    deletes that connection and keeps the others in place, and
    [updateConnectionLabel] replaces its label and nothing else.  In every
    case removal keeps exactly the connections with another identifier and
    relabelling changes no identifier, source or target. *)
Theorem remove_relabel_by_id (st : CanvasState) :
  ((forall c, c ∈ connections st -> id c <> cid) ->
     connections (removeConnection cid st) = connections st
     /\ connections (updateConnectionLabel cid lbl st) = connections st)
  /\ (forall l1 c l2,
        connections st = l1 ++ c :: l2 ->
        id c = cid ->
        (forall c', c' ∈ l1 ++ l2 -> id c' <> cid) ->
        connections (removeConnection cid st) = l1 ++ l2
        /\ connections (updateConnectionLabel cid lbl st)
           = l1 ++ {| id := id c; sourceId := sourceId c;
                      targetId := targetId c; label := Some lbl |} :: l2)
  /\ (forall c, c ∈ connections (removeConnection cid st)
                <-> c ∈ connections st /\ id c <> cid)
  /\ (forall (i : nat) c,
        connections st !! i = Some c ->
        exists c',
          connections (updateConnectionLabel cid lbl st) !! i = Some c'
          /\ id c' = id c /\ sourceId c' = sourceId c
          /\ targetId c' = targetId c
          /\ label c' = if String.eqb (id c) cid then Some lbl else label c).
Proof.
  rewrite removeConnection_connections, updateConnectionLabel_connections.
  split; [|split; [|split]].
  - intros Habs. split; [by apply filter_keep_absent | by apply map_relabel_absent].
  - intros l1 c l2 Hcs Hid Hothers. rewrite Hcs.
    assert (H1 : forall c', c' ∈ l1 -> id c' <> cid)
      by (intros c' Hin; apply Hothers, elem_of_app; by left).
    assert (H2 : forall c', c' ∈ l2 -> id c' <> cid)
      by (intros c' Hin; apply Hothers, elem_of_app; by right).
    split.
    + rewrite List.filter_app. cbn [List.filter].
      assert (Hc : otherId cid c = false).
      { unfold otherId. apply negb_false_iff, String.eqb_eq, Hid. }
      rewrite Hc. by rewrite !filter_keep_absent.
    + rewrite map_app. cbn [map]. rewrite !map_relabel_absent by done.
      unfold relabelIf.
      assert (Hc : String.eqb (id c) cid = true) by apply String.eqb_eq, Hid.
      by rewrite Hc.
  - intros c. rewrite !list_elem_of_In, filter_In, keep_true. done.
  - intros i c Hi. exists (relabelIf cid lbl c). split.
    + by rewrite list_lookup_fmap, Hi.
    + unfold relabelIf. by destruct (String.eqb (id c) cid).
Qed.

End RemoveRelabel.

Lemma remove_relabel_by_id_witness :
  (connections (removeConnection "conn-9" wiredSample) = connections wiredSample
   /\ connections (updateConnectionLabel "conn-9" "x" wiredSample)
      = connections wiredSample)
  /\ (connections (removeConnection "conn-2" wiredSample) = [connOpens] ++ []
      /\ connections (updateConnectionLabel "conn-2" "then" wiredSample)
         = [connOpens] ++ withLabel "then" connLeads :: []).
Proof.
  split.
  - apply (remove_relabel_by_id "conn-9" "x" wiredSample).
    intros c Hin.
    apply elem_of_cons in Hin as [->|Hin]; [done|].
    apply elem_of_cons in Hin as [->|Hin]; [done|].
    by apply elem_of_nil in Hin.
  - apply (proj1 (proj2 (remove_relabel_by_id "conn-2" "then" wiredSample))
             [connOpens] connLeads []); [reflexivity..|].
    intros c Hin.
    apply elem_of_cons in Hin as [->|Hin]; [done|].
    by apply elem_of_nil in Hin.
Defined.

(** ** Connection store: add *)

Lemma samePair_true a b c :
  samePair a b c = true <-> sourceId c = a /\ targetId c = b.
Proof. unfold samePair. by rewrite andb_true_iff, !String.eqb_eq. Qed.

Lemma existsb_samePair_false a b cs :
  existsb (samePair a b) cs = false
  <-> forall c, c ∈ cs -> ~ (sourceId c = a /\ targetId c = b).
Proof.
  rewrite <- not_true_iff_false, existsb_exists. split.
  - intros Hno c Hin Hpair. apply Hno. exists c.
    split; [by apply list_elem_of_In | by apply samePair_true].
  - intros Hno (c & Hin & Hpair). apply (Hno c); [by apply list_elem_of_In|].
    by apply samePair_true.
Qed.

Lemma pairCount_zero a b cs :
  pairCount a b cs = 0%nat <-> existsb (samePair a b) cs = false.
Proof.
  unfold pairCount. induction cs as [|c cs IH]; [done|].
  cbn [List.filter existsb]. destruct (samePair a b c); cbn; [done|exact IH].
Qed.

Lemma pairCount_snoc a b cs c :
  pairCount a b (cs ++ [c])
  = (pairCount a b cs + if samePair a b c then 1 else 0)%nat.
Proof.
  unfold pairCount. rewrite List.filter_app, length_app. cbn [List.filter].
  by destruct (samePair a b c).
Qed.

(** What a release on an input socket does to the connection list. *)
Lemma socketMouseUp_connections now b st dl :
  dragLine st = Some dl ->
  connections (handleSocketMouseUp now b true st)
  = if String.eqb (dl_sourceId dl) b then connections st
    else if existsb (samePair (dl_sourceId dl) b) (connections st)
         then connections st
         else connections st ++ [newConnection now (dl_sourceId dl) b].
Proof.
  intros Hdl. unfold handleSocketMouseUp. rewrite Hdl. cbn [andb].
  destruct (String.eqb (dl_sourceId dl) b); cbn [negb]; [done|].
  by destruct (existsb (samePair (dl_sourceId dl) b) (connections st)).
Qed.

Lemma socketMouseUp_emitted_rejected now b st dl :
  dragLine st = Some dl ->
  dl_sourceId dl = b \/ existsb (samePair (dl_sourceId dl) b) (connections st) = true ->
  emitted (handleSocketMouseUp now b true st) = emitted st.
Proof.
  intros Hdl Hrej. unfold handleSocketMouseUp. rewrite Hdl. cbn [andb].
  destruct (String.eqb (dl_sourceId dl) b) eqn:Heq; cbn [negb]; [done|].
  destruct Hrej as [Hrej|Hrej].
  - apply String.eqb_eq in Hrej. congruence.
  - by rewrite Hrej.
Qed.

Lemma connectionId_inj t1 t2 : connectionId t1 = connectionId t2 -> t1 = t2.
Proof.
  unfold connectionId. intros H.
  assert (Happ : forall s1 s2 : string, "conn-" +:+ s1 = "conn-" +:+ s2 -> s1 = s2).
  { intros s1 s2 Hs. cbn in Hs. by repeat (injection Hs as Hs). }
  apply Happ in H. by apply (inj pretty) in H.
Qed.

(** C3.  Completing a drag from [a] on the input socket of [b] changes
    nothing when [a] equals [b]; changes no connection (and so keeps the
    stored one with its label) when a connection from [a] to [b] exists;
    and otherwise appends one connection from [a] to [b] with an identifier
    made from the clock and the empty label.  Doing it twice leaves one
    connection with that pair. *)
Theorem add_connection_rejects (now : N) (b : string) (dl : DragLine)
    (st : CanvasState) :
  dragLine st = Some dl ->
  let a := dl_sourceId dl in
  let st' := handleSocketMouseUp now b true st in
  (a = b -> st' = st)
  /\ (forall c, c ∈ connections st -> sourceId c = a -> targetId c = b ->
        connections st' = connections st /\ emitted st' = emitted st)
  /\ (a <> b ->
      (forall c, c ∈ connections st -> ~ (sourceId c = a /\ targetId c = b)) ->
      connections st'
      = connections st
        ++ [{| id := connectionId now; sourceId := a; targetId := b;
               label := Some "" |}])
  /\ (forall t, connectionId t = connectionId now -> t = now)
  /\ (a <> b ->
      (pairCount a b (connections st) <= 1)%nat ->
      forall now2 dl2 st2,
        dragLine st2 = Some dl2 -> dl_sourceId dl2 = a ->
        connections st2 = connections st' ->
        connections (handleSocketMouseUp now2 b true st2) = connections st'
        /\ pairCount a b (connections st') = 1%nat).
Proof.
  intros Hdl a st'.
  assert (Hconns := socketMouseUp_connections now b st dl Hdl).
  fold a st' in Hconns.
  split; [|split; [|split; [|split]]].
  - intros Hab. subst st'. unfold handleSocketMouseUp. rewrite Hdl. fold a.
    apply String.eqb_eq in Hab. by rewrite Hab.
  - intros c Hin Hsrc Htgt.
    assert (Hex : existsb (samePair a b) (connections st) = true).
    { apply existsb_exists. exists c.
      split; [by apply list_elem_of_In | by apply samePair_true]. }
    split.
    + rewrite Hconns, Hex. by destruct (String.eqb a b).
    + apply (socketMouseUp_emitted_rejected now b st dl Hdl). by right.
  - intros Hab Hnone. apply String.eqb_neq in Hab.
    apply existsb_samePair_false in Hnone.
    by rewrite Hconns, Hab, Hnone.
  - intros t Ht. by apply connectionId_inj.
  - intros Hab Hcount now2 dl2 st2 Hdl2 Hsrc2 Hcs2.
    apply String.eqb_neq in Hab.
    assert (Hpair : samePair a b (newConnection now a b) = true).
    { apply samePair_true. by split. }
    assert (Hone : pairCount a b (connections st') = 1%nat).
    { rewrite Hconns, Hab.
      destruct (existsb (samePair a b) (connections st)) eqn:Hex.
      - destruct (pairCount a b (connections st)) as [|[|n]] eqn:Hn; [|done|lia].
        apply pairCount_zero in Hn. congruence.
      - rewrite pairCount_snoc, Hpair.
        apply pairCount_zero in Hex. rewrite Hex. done. }
    split; [|exact Hone].
    rewrite (socketMouseUp_connections now2 b st2 dl2 Hdl2), Hsrc2, Hab, Hcs2.
    destruct (existsb (samePair a b) (connections st')) eqn:Hex; [done|].
    apply pairCount_zero in Hex. lia.
Qed.

Lemma add_connection_rejects_witness :
  let st := handleSocketMouseDown (leftButtonAt 380 140) "n1" true wiredSample in
  (connections (handleSocketMouseUp 1700000000000 "n2" true st) = connections st
   /\ emitted (handleSocketMouseUp 1700000000000 "n2" true st) = emitted st)
  /\ connections (handleSocketMouseUp 1700000000000 "n3" true st)
     = connections st
       ++ [{| id := "conn-1700000000000"; sourceId := "n1"; targetId := "n3";
              label := Some "" |}].
Proof.
  intros st.
  pose proof (add_connection_rejects 1700000000000 "n2"
                (mkDragLine "n1" (int 380) (int 140) None) st eq_refl)
    as (_ & Hdup & _).
  pose proof (add_connection_rejects 1700000000000 "n3"
                (mkDragLine "n1" (int 380) (int 140) None) st eq_refl)
    as (_ & _ & Hnew & _).
  split.
  - apply (Hdup connOpens); [apply list_elem_of_here | reflexivity..].
  - rewrite Hnew; [reflexivity | done |].
    intros c Hin [Hsrc Htgt].
    apply elem_of_cons in Hin as [->|Hin]; [done|].
    apply elem_of_cons in Hin as [->|Hin]; [done|].
    by apply elem_of_nil in Hin.
Defined.

(** ** Reconnecting a connection *)

(** Releasing a reconnect drag away from every input socket removes the
    connection it carries. *)
Lemma handleMouseUp_reconnect st dl cid :
  dragLine st = Some dl ->
  isReconnectingId dl = Some cid ->
  cid <> "" ->
  connections (handleMouseUp st) = List.filter (otherId cid) (connections st)
  /\ dragLine (handleMouseUp st) = None.
Proof.
  intros Hdl Hrec Hcid. unfold handleMouseUp. rewrite Hdl, Hrec.
  assert (Ht : truthy (Some cid) = true).
  { unfold truthy. apply negb_true_iff, String.eqb_neq, Hcid. }
  rewrite Ht.
  destruct (isPanning st), (truthy (draggingNodeId st)), (selectionRect st);
    by split.
Qed.

(** Releasing a fresh drag away from every input socket creates nothing. *)
Lemma handleMouseUp_fresh_drag st dl :
  dragLine st = Some dl ->
  isReconnectingId dl = None ->
  connections (handleMouseUp st) = connections st.
Proof.
  intros Hdl Hrec. unfold handleMouseUp. rewrite Hdl, Hrec.
  by destruct (isPanning st), (truthy (draggingNodeId st)), (selectionRect st).
Qed.

(** The socket handler only ever appends: whatever the drag carries, every
    connection present before the release is present after it. *)
Lemma handleSocketMouseUp_keeps now nodeId isInput st c :
  c ∈ connections st -> c ∈ connections (handleSocketMouseUp now nodeId isInput st).
Proof.
  intros Hin. unfold handleSocketMouseUp.
  destruct (dragLine st) as [dl|]; [|done].
  destruct (isInput && negb (String.eqb (dl_sourceId dl) nodeId)); [|done].
  destruct (existsb (samePair (dl_sourceId dl) nodeId) (connections st)); [done|].
  cbn. apply elem_of_app. by left.
Qed.

(** C1.  The unplug handle of the connection n1 -> n2 is pressed and the
    drag released.  Over the canvas the connection is removed and none is
    created.  On the input socket of n3 the connection n1 -> n3 is created
    and the connection n1 -> n2 is still in the list. *)
Theorem reconnect_release :
  connections (mouseUp 1700000000000 OverCanvas unpluggedSample) = [connLeads]
  /\ connections (mouseUp 1700000000000 (OverInputSocket "n3") unpluggedSample)
     = [connOpens; connLeads;
        {| id := "conn-1700000000000"; sourceId := "n1"; targetId := "n3";
           label := Some "" |}]
  /\ connOpens ∈ connections
                   (mouseUp 1700000000000 (OverInputSocket "n3") unpluggedSample).
Proof.
  split; [reflexivity|]. split; [reflexivity|].
  apply handleSocketMouseUp_keeps, list_elem_of_here.
Qed.

(** ** How the modes are entered *)

(** A press on a node body from a canvas that is not panning starts the
    node drag that [nodeDragActive] describes. *)
Lemma handleMouseDown_starts_drag rect e nid st :
  nid <> "" -> button e <> 1%Z -> inSocket e = false -> inControls e = false ->
  isPanning st = false ->
  nodeDragActive (handleMouseDown rect e (Some nid) st).
Proof.
  intros Hnid Hbtn Hsock Hctl Hpan. unfold handleMouseDown, nodeDragActive.
  rewrite bool_decide_eq_false_2 by exact Hbtn.
  assert (Ht : truthy (Some nid) = true).
  { unfold truthy. apply negb_true_iff, String.eqb_neq, Hnid. }
  rewrite Ht, Hsock, Hctl.
  destruct (bool_decide (nid ∈ selectedNodeIds st)); by split.
Qed.

(** A press on the background of an idle canvas starts a marquee at the
    pointer and clears the selection. *)
Lemma handleMouseDown_starts_marquee rect e st :
  button e <> 1%Z ->
  isPanning st = false -> truthy (draggingNodeId st) = false ->
  let st' := handleMouseDown (Some rect) e None st in
  marqueeActive st'
    {| startX := clientX e; startY := clientY e;
       currentX := clientX e; currentY := clientY e |}
  /\ selectedNodeIds st' = [].
Proof.
  intros Hbtn Hpan Hdrag st'. subst st'. unfold handleMouseDown, marqueeActive.
  rewrite bool_decide_eq_false_2 by exact Hbtn. by repeat split.
Qed.

(** The pan button takes precedence wherever it is pressed: the selection
    and the drag state stay as they were. *)
Lemma handleMouseDown_pan rect e nodeId st :
  button e = 1%Z ->
  let st' := handleMouseDown rect e nodeId st in
  isPanning st' = true
  /\ selectedNodeIds st' = selectedNodeIds st
  /\ draggingNodeId st' = draggingNodeId st.
Proof.
  intros Hbtn st'. subst st'. unfold handleMouseDown.
  by rewrite bool_decide_eq_true_2 by exact Hbtn.
Qed.

(** * Further properties of the canvas *)

(** ** Panning *)



(** ** Releasing the pointer *)

Lemma handleMouseUp_modes_off (st : CanvasState) :
  isPanning (handleMouseUp st) = false
  /\ truthy (draggingNodeId (handleMouseUp st)) = false
  /\ selectionRect (handleMouseUp st) = None
  /\ dragLine (handleMouseUp st) = None
  /\ positions (handleMouseUp st) = positions st
  /\ transform (handleMouseUp st) = transform st
  /\ selectedNodeIds (handleMouseUp st) = selectedNodeIds st
  /\ collapsedNodes (handleMouseUp st) = collapsedNodes st.
Proof.
  unfold handleMouseUp.
  destruct (isPanning st) eqn:Hpan, (truthy (draggingNodeId st)) eqn:Hdrag,
    (selectionRect st) eqn:Hsr, (dragLine st) as [[src cx cy [cid|]]|] eqn:Hdl;
    cbn [isReconnectingId]; try destruct (truthy (Some cid));
    cbn; by rewrite ?Hpan, ?Hdrag, ?Hsr, ?Hdl.
Qed.

(** X3.  A release away from the input sockets ends every interaction mode and
    moves nothing: positions, view, selection and collapse flags are what
    they were.  A second release (the [mouseleave] that follows a
    [mouseup], say) is a no-op: nothing more is removed or persisted. *)
Theorem handleMouseUp_ends_modes (st : CanvasState) :
  let st' := handleMouseUp st in
  isPanning st' = false
  /\ truthy (draggingNodeId st') = false
  /\ selectionRect st' = None
  /\ dragLine st' = None
  /\ positions st' = positions st
  /\ transform st' = transform st
  /\ selectedNodeIds st' = selectedNodeIds st
  /\ collapsedNodes st' = collapsedNodes st
  /\ handleMouseUp st' = st'.
Proof.
  intros st'. subst st'.
  destruct (handleMouseUp_modes_off st)
    as (Hpan & Hdrag & Hsr & Hdl & Hpos & Htr & Hsel & Hcol).
  repeat (split; [done|]).
  generalize dependent (handleMouseUp st). intros st' Hpan Hdrag Hsr Hdl _ _ _ _.
  unfold handleMouseUp. by rewrite Hpan, Hdrag, Hsr, Hdl.
Qed.

(** X4.  Ending a node drag hands the current layout and connections to
    [onUpdate] once; a release while nothing is going on hands over
    nothing and leaves the state as it is. *)
Theorem handleMouseUp_persists_drag (st : CanvasState) :
  dragLine st = None ->
  (truthy (draggingNodeId st) = true ->
     emitted (handleMouseUp st)
     = emitted st ++ [(positions st, connections st)])
  /\ (truthy (draggingNodeId st) = false ->
      emitted (handleMouseUp st) = emitted st)
  /\ (truthy (draggingNodeId st) = false -> isPanning st = false ->
      selectionRect st = None -> handleMouseUp st = st).
Proof.
  intros Hdl. unfold handleMouseUp. rewrite Hdl.
  split; [|split].
  - intros ->. by destruct (isPanning st), (selectionRect st).
  - intros ->. by destruct (isPanning st), (selectionRect st).
  - intros -> -> ->. done.
Qed.

Lemma handleMouseUp_persists_drag_witness :
  emitted (handleMouseUp dragSample)
  = emitted dragSample ++ [(positions dragSample, connections dragSample)]
  /\ handleMouseUp wiredSample = wiredSample.
Proof.
  split.
  - apply (handleMouseUp_persists_drag dragSample); reflexivity.
  - apply (handleMouseUp_persists_drag wiredSample); reflexivity.
Defined.

(** ** Collapsing a card *)

(** X6.  One toggle flips the collapsed reading of that node and of no other;
    two toggles give back the reading of every node. *)
Theorem toggleCollapse_flips (nodeId : string) (st : CanvasState) :
  isCollapsed (toggleCollapse nodeId st) nodeId = negb (isCollapsed st nodeId)
  /\ (forall other, other <> nodeId ->
        isCollapsed (toggleCollapse nodeId st) other = isCollapsed st other)
  /\ (forall k,
        isCollapsed (toggleCollapse nodeId (toggleCollapse nodeId st)) k
        = isCollapsed st k)
  /\ positions (toggleCollapse nodeId st) = positions st
  /\ selectedNodeIds (toggleCollapse nodeId st) = selectedNodeIds st.
Proof.
  assert (Hflip : forall s0,
            isCollapsed (toggleCollapse nodeId s0) nodeId
            = negb (isCollapsed s0 nodeId)).
  { intros s0. unfold toggleCollapse. unfold isCollapsed at 1.
    cbn [collapsedNodes setCollapsedNodes]. by rewrite lookup_insert_eq. }
  assert (Hother : forall s0 other, other <> nodeId ->
            isCollapsed (toggleCollapse nodeId s0) other = isCollapsed s0 other).
  { intros s0 other Hne. unfold toggleCollapse. unfold isCollapsed at 1.
    cbn [collapsedNodes setCollapsedNodes]. by rewrite lookup_insert_ne. }
  split; [apply Hflip|]. split; [apply Hother|]. split; [|done].
  intros k. destruct (decide (k = nodeId)) as [->|Hne].
  - by rewrite !Hflip, negb_involutive.
  - by rewrite !Hother.
Qed.

Lemma toggleCollapse_flips_witness :
  isCollapsed (toggleCollapse "A" (toggleCollapse "D" marqueeSample)) "D" = false
  /\ isCollapsed (toggleCollapse "A" (toggleCollapse "D" marqueeSample)) "A" = true.
Proof.
  destruct (toggleCollapse_flips "A" (toggleCollapse "D" marqueeSample))
    as (Hflip & Hother & _).
  split.
  - rewrite Hother by done. reflexivity.
  - rewrite Hflip. reflexivity.
Defined.

(** ** More on the marquee *)

Lemma Math_min_comm a b : Math_min a b = Math_min b a.
Proof.
  unfold Math_min.
  destruct (decide (a < b)) as [H1|H1], (decide (b < a)) as [H2|H2]; try done.
  - exfalso. exact (Qclt_not_le _ _ H1 (Qclt_le_weak _ _ H2)).
  - apply Qcle_antisym; by apply Qcnot_lt_le.
Qed.

Lemma Math_max_comm a b : Math_max a b = Math_max b a.
Proof.
  unfold Math_max.
  destruct (decide (a < b)) as [H1|H1], (decide (b < a)) as [H2|H2]; try done.
  - exfalso. exact (Qclt_not_le _ _ H1 (Qclt_le_weak _ _ H2)).
  - apply Qcle_antisym; by apply Qcnot_lt_le.
Qed.

Lemma marqueeSelection_elem puzzles st rect sr e nid :
  nid ∈ marqueeSelection puzzles st rect sr e
  <-> exists pz,
        pz ∈ puzzles /\ pz_id pz = nid
        /\ marqueeHit st rect
             (Math_min (startX sr) (clientX e)) (Math_min (startY sr) (clientY e))
             (Math_max (startX sr) (clientX e)) (Math_max (startY sr) (clientY e))
             pz = true.
Proof.
  unfold marqueeSelection. rewrite list_elem_of_fmap. split.
  - intros (pz & -> & Hin). apply list_elem_of_In, filter_In in Hin as [Hin Hhit].
    exists pz. split; [by apply list_elem_of_In | done].
  - intros (pz & Hin & <- & Hhit). exists pz. split; [done|].
    apply list_elem_of_In, filter_In. split; [by apply list_elem_of_In | done].
Qed.

(** X7.  The marquee does not care in which direction it was dragged: anchor
    and pointer exchanged select the same nodes. *)
Theorem marquee_direction_free (puzzles : list PuzzleDefinition) (rect : DOMRect)
    (e : MouseEvent) (st : CanvasState) (sr : SelectionRect) :
  marqueeActive st sr ->
  let back := {| button := button e; clientX := startX sr; clientY := startY sr;
                 inSocket := inSocket e; inControls := inControls e |} in
  let swapped :=
    setSelectionRect
      (Some {| startX := clientX e; startY := clientY e;
               currentX := clientX e; currentY := clientY e |}) st in
  selectedNodeIds (handleMouseMove puzzles (Some rect) back swapped)
  = selectedNodeIds (handleMouseMove puzzles (Some rect) e st).
Proof.
  intros Hact back swapped.
  assert (Hact' : marqueeActive swapped
                    {| startX := clientX e; startY := clientY e;
                       currentX := clientX e; currentY := clientY e |}).
  { destruct Hact as (Hpan & Hdrag & _). by repeat split. }
  rewrite (marquee_selected _ _ _ _ _ Hact), (marquee_selected _ _ _ _ _ Hact').
  unfold marqueeSelection, back. cbn [startX startY clientX clientY].
  rewrite (Math_min_comm (clientX e)), (Math_min_comm (clientY e)),
    (Math_max_comm (clientX e)), (Math_max_comm (clientY e)).
  reflexivity.
Qed.

Lemma marquee_direction_free_witness :
  selectedNodeIds
    (handleMouseMove marqueeNodes (Some originRect) (leftButtonAt 50 50)
       (setSelectionRect
          (Some (mkSelectionRect (int 500) (int 400) (int 500) (int 400)))
          marqueeSample))
  = selectedNodeIds
      (handleMouseMove marqueeNodes (Some originRect) (leftButtonAt 500 400)
         marqueeSample).
Proof.
  apply (marquee_direction_free marqueeNodes originRect (leftButtonAt 500 400)
           marqueeSample (mkSelectionRect (int 50) (int 50) (int 50) (int 50))).
  repeat split; reflexivity.
Defined.

(** X8.  Growing the rectangle never drops a node: whatever a smaller marquee
    selects, a marquee that contains it selects too. *)
Theorem marquee_monotone (puzzles : list PuzzleDefinition) (rect : DOMRect)
    (e1 e2 : MouseEvent) (st : CanvasState) (sr : SelectionRect) :
  marqueeActive st sr ->
  Math_min (startX sr) (clientX e2) <= Math_min (startX sr) (clientX e1) ->
  Math_min (startY sr) (clientY e2) <= Math_min (startY sr) (clientY e1) ->
  Math_max (startX sr) (clientX e1) <= Math_max (startX sr) (clientX e2) ->
  Math_max (startY sr) (clientY e1) <= Math_max (startY sr) (clientY e2) ->
  forall nid,
    nid ∈ selectedNodeIds (handleMouseMove puzzles (Some rect) e1 st) ->
    nid ∈ selectedNodeIds (handleMouseMove puzzles (Some rect) e2 st).
Proof.
  intros Hact Hx1 Hy1 Hx2 Hy2 nid.
  rewrite !(marquee_selected _ _ _ _ _ Hact), !marqueeSelection_elem.
  intros (pz & Hin & Hid & Hhit). exists pz. split; [done|]. split; [done|].
  apply marqueeHit_overlap in Hhit as (pos & Hpos & Hbox).
  apply marqueeHit_overlap. exists pos. split; [done|].
  destruct (screenBox st rect (pz_id pz) pos) as [[[sx sy] sw] sh].
  destruct Hbox as (H1 & H2 & H3 & H4).
  exact (conj (Qclt_le_trans _ _ _ H1 Hx2)
          (conj (Qcle_lt_trans _ _ _ Hx1 H2)
             (conj (Qclt_le_trans _ _ _ H3 Hy2) (Qcle_lt_trans _ _ _ Hy1 H4)))).
Qed.

Lemma marquee_monotone_witness :
  "A" ∈ selectedNodeIds
          (handleMouseMove marqueeNodes (Some originRect) (leftButtonAt 500 400)
             marqueeSample).
Proof.
  apply (marquee_monotone marqueeNodes originRect (leftButtonAt 120 130)
           (leftButtonAt 500 400) marqueeSample
           (mkSelectionRect (int 50) (int 50) (int 50) (int 50)));
    [ repeat split; reflexivity
    | by vm_compute | by vm_compute | by vm_compute | by vm_compute
    | apply (bool_decide_unpack _); by vm_compute ].
Defined.

(** ** Invariants of the connection list *)

Lemma NoDup_map_filter {A B : Type} (f : A -> B) (p : A -> bool) (l : list A) :
  NoDup (map f l) -> NoDup (map f (List.filter p l)).
Proof.
  induction l as [|a l IH]; [done|]. cbn [map List.filter].
  intros Hnd. apply NoDup_cons in Hnd as [Hnotin Hnd].
  destruct (p a); [|by apply IH]. cbn [map]. apply NoDup_cons. split; [|by apply IH].
  intros Hin. apply Hnotin.
  apply list_elem_of_fmap in Hin as (a' & -> & Hin').
  apply list_elem_of_fmap. exists a'. split; [done|].
  apply list_elem_of_In. apply list_elem_of_In, filter_In in Hin'. tauto.
Qed.

Lemma Forall_filter_keep {A : Type} (P : A -> Prop) (p : A -> bool) (l : list A) :
  Forall P l -> Forall P (List.filter p l).
Proof.
  induction 1 as [|a l Ha Hl IH]; [constructor|]. cbn [List.filter].
  destruct (p a); [by constructor | done].
Qed.

Lemma relabelIf_fields cid lbl c :
  id (relabelIf cid lbl c) = id c
  /\ sourceId (relabelIf cid lbl c) = sourceId c
  /\ targetId (relabelIf cid lbl c) = targetId c.
Proof. unfold relabelIf. by destruct (String.eqb (id c) cid). Qed.

Lemma map_relabel_pairs cid lbl cs :
  map connPair (map (relabelIf cid lbl) cs) = map connPair cs
  /\ map id (map (relabelIf cid lbl) cs) = map id cs.
Proof.
  rewrite !map_map. split; apply map_ext; intros c; unfold connPair;
    destruct (relabelIf_fields cid lbl c) as (H1 & H2 & H3); congruence.
Qed.

(** X11.  Completing a drag on a socket never creates a second connection with
    the same ordered pair and never creates a self-loop. *)
Theorem socketMouseUp_keeps_invariants (now : N) (nodeId : string)
    (isInput : bool) (st : CanvasState) :
  pairsDistinct (connections st) ->
  noSelfLoop (connections st) ->
  pairsDistinct (connections (handleSocketMouseUp now nodeId isInput st))
  /\ noSelfLoop (connections (handleSocketMouseUp now nodeId isInput st)).
Proof.
  intros Hpairs Hloops. unfold handleSocketMouseUp.
  destruct (dragLine st) as [dl|]; [|done].
  destruct isInput; cbn [andb]; [|done].
  destruct (String.eqb (dl_sourceId dl) nodeId) eqn:Hself; cbn [negb]; [done|].
  destruct (existsb (samePair (dl_sourceId dl) nodeId) (connections st)) eqn:Hex;
    [done|].
  cbn [connections setDragLine onUpdate setConnections].
  apply String.eqb_neq in Hself.
  split.
  - unfold pairsDistinct. rewrite map_app. apply NoDup_app.
    split; [exact Hpairs|]. split; [|apply NoDup_singleton].
    intros pr Hin Hnew. cbn in Hnew. apply list_elem_of_singleton in Hnew. subst pr.
    apply list_elem_of_fmap in Hin as (c & Hc & Hin).
    pose proof (proj1 (existsb_samePair_false _ _ _) Hex c Hin) as Hno.
    apply Hno. unfold connPair in Hc. by injection Hc as <- <-.
  - unfold noSelfLoop. apply Forall_app. split; [exact Hloops|].
    by repeat constructor.
Qed.

Lemma socketMouseUp_keeps_invariants_witness :
  pairsDistinct
    (connections
       (handleSocketMouseUp 1700000000000 "n3" true unpluggedSample)).
Proof.
  apply (socketMouseUp_keeps_invariants 1700000000000 "n3" true unpluggedSample).
  - apply (bool_decide_unpack _). by vm_compute.
  - repeat constructor; done.
Defined.

(** X12.  Removing, relabelling and releasing the pointer keep the connection
    list free of duplicate pairs, of self-loops and of duplicate
    identifiers. *)
Theorem store_edits_keep_invariants (cid lbl : string) (st : CanvasState) :
  pairsDistinct (connections st) ->
  noSelfLoop (connections st) ->
  NoDup (map id (connections st)) ->
  forall st',
    st' = removeConnection cid st
    \/ st' = updateConnectionLabel cid lbl st
    \/ st' = handleMouseUp st ->
    pairsDistinct (connections st')
    /\ noSelfLoop (connections st')
    /\ NoDup (map id (connections st')).
Proof.
  intros Hpairs Hloops Hids.
  assert (Hfilter : forall k,
             pairsDistinct (List.filter (otherId k) (connections st))
             /\ noSelfLoop (List.filter (otherId k) (connections st))
             /\ NoDup (map id (List.filter (otherId k) (connections st)))).
  { intros k. split; [by apply NoDup_map_filter|].
    split; [by apply Forall_filter_keep | by apply NoDup_map_filter]. }
  intros st' [-> | [-> | ->]].
  - apply Hfilter.
  - cbn [connections updateConnectionLabel onUpdate setConnections].
    destruct (map_relabel_pairs cid lbl (connections st)) as [Hp Hi].
    unfold pairsDistinct. rewrite Hp, Hi. split; [done|]. split; [|done].
    unfold noSelfLoop in *. rewrite Forall_forall in *.
    intros c Hin. apply list_elem_of_fmap in Hin as (c0 & -> & Hin).
    destruct (relabelIf_fields cid lbl c0) as (_ & -> & ->). by apply Hloops.
  - unfold handleMouseUp.
    destruct (isPanning st), (truthy (draggingNodeId st)), (selectionRect st),
      (dragLine st) as [[src cx cy [k|]]|]; cbn [isReconnectingId];
      try destruct (truthy (Some k)); cbn; try done; apply Hfilter.
Qed.

Lemma store_edits_keep_invariants_witness :
  NoDup (map id (connections (updateConnectionLabel "conn-2" "then" wiredSample))).
Proof.
  apply (store_edits_keep_invariants "conn-2" "then" wiredSample);
    [ apply (bool_decide_unpack _); by vm_compute
    | repeat constructor; done
    | apply (bool_decide_unpack _); by vm_compute
    | right; left; reflexivity ].
Defined.

(** ** How store edits compose *)

Lemma filter_otherId_comm a b (cs : list FlowConnection) :
  List.filter (otherId a) (List.filter (otherId b) cs)
  = List.filter (otherId b) (List.filter (otherId a) cs).
Proof.
  induction cs as [|c cs IH]; [done|]. cbn [List.filter].
  destruct (otherId b c) eqn:Hb, (otherId a c) eqn:Ha; cbn [List.filter];
    rewrite ?Ha, ?Hb; by rewrite IH.
Qed.

Lemma filter_otherId_twice a (cs : list FlowConnection) :
  List.filter (otherId a) (List.filter (otherId a) cs) = List.filter (otherId a) cs.
Proof.
  induction cs as [|c cs IH]; [done|]. cbn [List.filter].
  destruct (otherId a c) eqn:Ha; cbn [List.filter]; rewrite ?Ha; by rewrite IH.
Qed.

Lemma filter_after_relabel a l (cs : list FlowConnection) :
  List.filter (otherId a) (map (relabelIf a l) cs) = List.filter (otherId a) cs.
Proof.
  induction cs as [|c cs IH]; [done|]. cbn [map List.filter].
  assert (Hsame : otherId a (relabelIf a l c) = otherId a c).
  { unfold otherId. by destruct (relabelIf_fields a l c) as (-> & _). }
  rewrite Hsame, IH. destruct (otherId a c) eqn:Ha; [|done].
  f_equal. unfold relabelIf. unfold otherId in Ha.
  apply negb_true_iff in Ha. by rewrite Ha.
Qed.

(** X13.  The last label written wins, removing twice is removing once,
    removals commute, and a relabelled connection is removed like any
    other. *)
Theorem store_edits_compose (a b l1 l2 : string) (st : CanvasState) :
  connections (updateConnectionLabel a l2 (updateConnectionLabel a l1 st))
  = connections (updateConnectionLabel a l2 st)
  /\ connections (removeConnection a (removeConnection a st))
     = connections (removeConnection a st)
  /\ connections (removeConnection a (removeConnection b st))
     = connections (removeConnection b (removeConnection a st))
  /\ connections (removeConnection a (updateConnectionLabel a l1 st))
     = connections (removeConnection a st)
  /\ (a <> b ->
      connections (updateConnectionLabel a l1 (updateConnectionLabel b l2 st))
      = connections (updateConnectionLabel b l2 (updateConnectionLabel a l1 st))).
Proof.
  cbn [connections updateConnectionLabel removeConnection onUpdate setConnections].
  split; [|split; [|split; [|split]]].
  - rewrite map_map. apply map_ext. intros c. unfold relabelIf.
    destruct (String.eqb (id c) a) eqn:Ha; cbn [id]; by rewrite Ha.
  - apply filter_otherId_twice.
  - apply filter_otherId_comm.
  - apply filter_after_relabel.
  - intros Hab. rewrite !map_map. apply map_ext. intros c. unfold relabelIf.
    destruct (String.eqb (id c) a) eqn:Ha, (String.eqb (id c) b) eqn:Hb;
      cbn [id]; rewrite ?Ha, ?Hb; try done.
    apply String.eqb_eq in Ha, Hb. congruence.
Qed.

Lemma store_edits_compose_witness :
  connections (updateConnectionLabel "conn-1" "x" (updateConnectionLabel "conn-2" "y" wiredSample))
  = connections (updateConnectionLabel "conn-2" "y" (updateConnectionLabel "conn-1" "x" wiredSample)).
Proof.
  apply (store_edits_compose "conn-1" "conn-2" "x" "y" wiredSample). done.
Defined.

(** ** Connection drags across pointer moves *)

Lemma handleMouseMove_drag_identity puzzles rect e st :
  connections (handleMouseMove puzzles rect e st) = connections st
  /\ (dl_sourceId <$> dragLine (handleMouseMove puzzles rect e st))
     = (dl_sourceId <$> dragLine st)
  /\ (isReconnectingId <$> dragLine (handleMouseMove puzzles rect e st))
     = (isReconnectingId <$> dragLine st).
Proof.
  unfold handleMouseMove.
  destruct (isPanning st), (truthy (draggingNodeId st)),
    (selectionRect st), rect, (dragLine st) eqn:Hdl;
    cbn [fmap option_fmap option_map dragLine connections setDragLine
         setLastMousePos setTransform setPositions setSelectionRect
         setSelectedNodeIds dl_sourceId isReconnectingId];
    by rewrite ?Hdl.
Qed.

Lemma mouseMoves_drag_identity puzzles rect es : forall st,
  connections (mouseMoves puzzles rect es st) = connections st
  /\ (dl_sourceId <$> dragLine (mouseMoves puzzles rect es st))
     = (dl_sourceId <$> dragLine st)
  /\ (isReconnectingId <$> dragLine (mouseMoves puzzles rect es st))
     = (isReconnectingId <$> dragLine st).
Proof.
  unfold mouseMoves. induction es as [|e es IH]; intros st; [done|].
  cbn [foldl]. destruct (IH (handleMouseMove puzzles rect e st)) as (-> & -> & ->).
  apply handleMouseMove_drag_identity.
Qed.

Lemma handleMouseUp_connections st :
  connections (handleMouseUp st)
  = match isReconnectingId <$> dragLine st with
    | Some (Some cid) =>
        if truthy (Some cid)
        then List.filter (otherId cid) (connections st)
        else connections st
    | _ => connections st
    end.
Proof.
  unfold handleMouseUp.
  destruct (isPanning st), (truthy (draggingNodeId st)), (selectionRect st),
    (dragLine st) as [[src cx cy [k|]]|]; cbn [isReconnectingId fmap option_fmap option_map];
    try destruct (truthy (Some k)); done.
Qed.

Lemma handleSocketMouseUp_connections now nodeId isInput st :
  connections (handleSocketMouseUp now nodeId isInput st)
  = match dl_sourceId <$> dragLine st with
    | Some src =>
        if isInput && negb (String.eqb src nodeId)
        then if existsb (samePair src nodeId) (connections st)
             then connections st
             else connections st ++ [newConnection now src nodeId]
        else connections st
    | None => connections st
    end.
Proof.
  unfold handleSocketMouseUp.
  destruct (dragLine st) as [dl|]; cbn [fmap option_fmap option_map]; [|done].
  destruct (isInput && negb (String.eqb (dl_sourceId dl) nodeId)); [|done].
  by destruct (existsb (samePair (dl_sourceId dl) nodeId) (connections st)).
Qed.

(** X14.  What a release does to the connections depends on where the drag
    began and where it ends, not on the pointer moves in between; a drag
    begun on an output socket and released over the canvas changes no
    connection. *)
Theorem connection_drag_ignores_moves (puzzles : list PuzzleDefinition)
    (rect : option DOMRect) (now : N) (target : ReleaseTarget)
    (es : list MouseEvent) (st : CanvasState) :
  connections (mouseUp now target (mouseMoves puzzles rect es st))
  = connections (mouseUp now target st)
  /\ (forall e nodeId,
        connections
          (mouseUp now OverCanvas
             (mouseMoves puzzles rect es (handleSocketMouseDown e nodeId true st)))
        = connections st).
Proof.
  assert (Hany : forall s,
    connections (mouseUp now target (mouseMoves puzzles rect es s))
    = connections (mouseUp now target s)).
  { intros s. destruct (mouseMoves_drag_identity puzzles rect es s) as (Hc & Hs & Hr).
    destruct target as [|nodeId]; cbn [mouseUp].
    - by rewrite !handleMouseUp_connections, Hc, Hr.
    - by rewrite !handleSocketMouseUp_connections, Hc, Hs. }
  split; [apply Hany|].
  intros e nodeId.
  destruct (mouseMoves_drag_identity puzzles rect es
              (handleSocketMouseDown e nodeId true st)) as (Hc & _ & Hr).
  cbn [mouseUp]. rewrite handleMouseUp_connections, Hc, Hr. done.
Qed.

(** ** Where a press lands *)

Lemma handleMouseDown_background (rect : DOMRect) e st :
  button e <> 1%Z ->
  handleMouseDown (Some rect) e None st
  = setSelectedNodeIds []
      (setSelectionRect
         (Some {| startX := clientX e; startY := clientY e;
                  currentX := clientX e; currentY := clientY e |}) st).
Proof.
  intros Hbtn. unfold handleMouseDown.
  by rewrite bool_decide_eq_false_2 by exact Hbtn.
Qed.

(** A press the card sees but does not take: the container starts a
    marquee. *)
Lemma cardMouseDown_passes (rect : DOMRect) e nodeId st :
  button e <> 1%Z ->
  inSocket e = true \/ inControls e = true ->
  cardMouseDown (Some rect) e nodeId st
  = setSelectedNodeIds []
      (setSelectionRect
         (Some {| startX := clientX e; startY := clientY e;
                  currentX := clientX e; currentY := clientY e |}) st).
Proof.
  intros Hbtn Hsub.
  assert (Hstop : stopsPropagation e (Some nodeId) = false).
  { unfold stopsPropagation. destruct Hsub as [-> | ->];
      by rewrite ?andb_false_r. }
  assert (Hcard : truthy (Some nodeId) = true ->
                  handleMouseDown (Some rect) e (Some nodeId) st = st).
  { intros Ht. unfold handleMouseDown.
    rewrite bool_decide_eq_false_2 by exact Hbtn. rewrite Ht.
    destruct Hsub as [-> | ->]; [done|by destruct (inSocket e)]. }
  unfold cardMouseDown. rewrite Hstop.
  destruct (truthy (Some nodeId)) eqn:Ht.
  - rewrite Hcard by done. by apply handleMouseDown_background.
  - rewrite !handleMouseDown_background by done.
    unfold handleMouseDown. rewrite bool_decide_eq_false_2 by exact Hbtn.
    by rewrite Ht.
Qed.

(** X18.  A press on the input socket or on a control of a node card is not
    taken by the card: it reaches the container, which starts a marquee at
    the pointer and clears the selection; no node drag and no connection
    drag starts.  A press on the output socket never reaches the card or
    the container: whatever the button, it starts a connection drag from
    the node and leaves selection, marquee, pan and node drag as they
    were. *)
Theorem press_on_socket_or_controls (rect : DOMRect) (btn : Z) (x y : Qc)
    (nid : string) (st : CanvasState) :
  (btn <> 1%Z ->
   forall target, target = OnInputSocket nid \/ target = OnControls nid ->
     let st' := mouseDown (Some rect) btn x y target st in
     selectedNodeIds st' = []
     /\ selectionRect st'
        = Some {| startX := x; startY := y; currentX := x; currentY := y |}
     /\ draggingNodeId st' = draggingNodeId st
     /\ dragLine st' = dragLine st
     /\ positions st' = positions st)
  /\ (let st' := mouseDown (Some rect) btn x y (OnOutputSocket nid) st in
      dragLine st'
      = Some {| dl_sourceId := nid; dl_currentX := x; dl_currentY := y;
                isReconnectingId := None |}
      /\ selectedNodeIds st' = selectedNodeIds st
      /\ selectionRect st' = selectionRect st
      /\ draggingNodeId st' = draggingNodeId st
      /\ isPanning st' = isPanning st
      /\ positions st' = positions st).
Proof.
  split; [|done].
  intros Hbtn target Htarget st'. subst st'.
  assert (Hgo : mouseDown (Some rect) btn x y target st
                = cardMouseDown (Some rect) (pressEvent btn x y target) nid st)
    by (by destruct Htarget as [-> | ->]).
  rewrite Hgo, cardMouseDown_passes; [by destruct Htarget as [-> | ->]|done|].
  destruct Htarget as [-> | ->]; [by left|by right].
Qed.

Lemma press_on_socket_or_controls_witness :
  selectedNodeIds
    (mouseDown (Some originRect) 0 (int 95) (int 140) (OnInputSocket "a") dragSample)
  = []
  /\ selectedNodeIds
       (mouseDown (Some originRect) 0 (int 95) (int 140) (OnOutputSocket "a")
          dragSample)
     = ["a"; "b"; "ghost"].
Proof.
  destruct (press_on_socket_or_controls originRect 0 (int 95) (int 140) "a"
              dragSample) as [Hin Hout].
  split.
  - apply (Hin ltac:(done) (OnInputSocket "a")). by left.
  - apply Hout.
Defined.

(** X19.  On the body of a card a press with another button than the pan
    button stays with the card: what happens is what the card's handler
    does, and no marquee starts.  With the pan button a press on the
    background, on a card, on its controls or on its input socket starts a
    pan at the pointer and nothing else. *)
Theorem press_on_card_body (rect : option DOMRect) (btn : Z) (x y : Qc)
    (nid : string) (st : CanvasState) :
  (nid <> "" -> btn <> 1%Z ->
     let st' := mouseDown rect btn x y (OnCardBody nid) st in
     st' = handleMouseDown rect (pressEvent btn x y (OnCardBody nid)) (Some nid) st
     /\ draggingNodeId st' = Some nid
     /\ selectionRect st' = selectionRect st
     /\ lastMousePos st' = {| pt_x := x; pt_y := y |})
  /\ (forall target,
        target = OnBackground \/ target = OnCardBody nid
        \/ target = OnControls nid \/ target = OnInputSocket nid ->
        mouseDown rect 1 x y target st
        = setLastMousePos {| pt_x := x; pt_y := y |} (setIsPanning true st)).
Proof.
  split.
  - intros Hnid Hbtn st'. subst st'.
    assert (Ht : truthy (Some nid) = true).
    { unfold truthy. apply negb_true_iff, String.eqb_neq, Hnid. }
    cbn [mouseDown]. unfold cardMouseDown, stopsPropagation.
    cbn [pressEvent button inSocket inControls].
    rewrite bool_decide_eq_false_2 by exact Hbtn. rewrite Ht. cbn [negb andb].
    split; [done|]. unfold handleMouseDown.
    cbn [pressEvent button inSocket inControls].
    rewrite bool_decide_eq_false_2 by exact Hbtn. rewrite Ht.
    by destruct (bool_decide (nid ∈ selectedNodeIds st)).
  - intros target Htarget.
    assert (Hpan : forall e nodeId s0, button e = 1%Z ->
              handleMouseDown rect e nodeId s0
              = setLastMousePos (eventPoint e) (setIsPanning true s0)).
    { intros e nodeId s0 Hb. unfold handleMouseDown.
      by rewrite bool_decide_eq_true_2 by exact Hb. }
    destruct Htarget as [-> | [-> | [-> | ->]]]; cbn [mouseDown];
      unfold cardMouseDown, stopsPropagation;
      rewrite ?Hpan by done; by destruct st.
Qed.

Lemma press_on_card_body_witness :
  draggingNodeId (mouseDown None 0 (int 5) (int 5) (OnCardBody "c") dragSample)
  = Some "c".
Proof.
  apply (proj1 (press_on_card_body None 0 (int 5) (int 5) "c" dragSample));
    done.
Defined.

(** ** More on auto-placement *)

Lemma placeMissing_all_placed pzs : forall idx (m : gmap string PosValue) b,
  (forall pz, pz ∈ pzs -> lacksPosition m (pz_id pz) = false) ->
  placeMissing idx pzs (m, b) = (m, b).
Proof.
  induction pzs as [|pz rest IH]; intros idx m b Hall; [done|].
  cbn [placeMissing fst].
  rewrite (Hall pz (list_elem_of_here _ _)).
  apply IH. intros pz' Hin. by apply Hall, list_elem_of_further.
Qed.

(** After a pass no listed identifier reads as missing. *)
Lemma placeMissing_none_lacking pzs idx (m : gmap string PosValue) b pz :
  pz ∈ pzs ->
  lacksPosition (placeMissing idx pzs (m, b)).1 (pz_id pz) = false.
Proof.
  intros Hin. apply lacksPosition_false.
  destruct (inherited (pz_id pz)) eqn:Hinh; [by right|left].
  by apply placeMissing_covers.
Qed.

Lemma placeMissing_flag pzs : forall idx (m : gmap string PosValue),
  (placeMissing idx pzs (m, false)).2 = true
  <-> exists pz, pz ∈ pzs /\ lacksPosition m (pz_id pz) = true.
Proof.
  assert (Hflag : forall pzs idx (m : gmap string PosValue),
             (placeMissing idx pzs (m, true)).2 = true).
  { clear. induction pzs as [|pz rest IH]; intros idx m; [done|].
    cbn [placeMissing fst]. destruct (lacksPosition m (pz_id pz)); apply IH. }
  induction pzs as [|pz rest IH]; intros idx m.
  - cbn. split; [done|]. intros (pz & Hin & _). by apply elem_of_nil in Hin.
  - cbn [placeMissing fst]. destruct (lacksPosition m (pz_id pz)) eqn:Hp.
    + rewrite Hflag. split; [|done]. intros _. exists pz.
      split; [apply list_elem_of_here | done].
    + rewrite IH. split.
      * intros (pz' & Hin & Hnone). exists pz'.
        split; [by apply list_elem_of_further | done].
      * intros (pz' & Hin & Hnone). apply elem_of_cons in Hin as [-> | Hin];
          [congruence|]. by exists pz'.
Qed.

Lemma lacksPosition_placed (m : gmap string PosValue) k :
  is_Some (m !! k) -> lacksPosition m k = false.
Proof. intros H. apply lacksPosition_false. by left. Qed.

(** X20.  A second auto-placement pass over the same node list changes nothing
    and persists nothing; the same holds for a first pass when every node
    already has a position, the empty node list included. *)
Theorem ensurePositions_idempotent (puzzles : list PuzzleDefinition)
    (st : CanvasState) :
  ensurePositions puzzles (ensurePositions puzzles st) = ensurePositions puzzles st
  /\ ((forall pz, pz ∈ puzzles -> is_Some (positions st !! pz_id pz)) ->
      ensurePositions puzzles st = st).
Proof.
  assert (Hnoop : forall s,
             (forall pz, pz ∈ puzzles ->
                lacksPosition (positions s) (pz_id pz) = false) ->
             ensurePositions puzzles s = s).
  { intros s Hall. unfold ensurePositions.
    by rewrite (placeMissing_all_placed puzzles 0 (positions s) false Hall). }
  split.
  - apply Hnoop. intros pz Hin. rewrite ensurePositions_positions.
    by apply placeMissing_none_lacking.
  - intros Hall. apply Hnoop. intros pz Hin.
    by apply lacksPosition_placed, Hall.
Qed.

Lemma ensurePositions_idempotent_witness :
  ensurePositions [mkPuzzle "a" "A"; mkPuzzle "c" "C"] dragSample = dragSample.
Proof.
  apply (ensurePositions_idempotent [mkPuzzle "a" "A"; mkPuzzle "c" "C"] dragSample).
  intros pz Hin.
  apply elem_of_cons in Hin as [-> | Hin]; [by eexists|].
  apply elem_of_cons in Hin as [-> | Hin]; [by eexists|].
  by apply elem_of_nil in Hin.
Defined.

(** X21.  The pass persists exactly when some listed identifier reads as
    missing (no entry, and not a name the positions object inherits): then
    once, with the completed layout and the connections untouched;
    otherwise it leaves the state as it is.  Afterwards the identifiers
    with an entry are the old ones and the listed ones that are not
    inherited names. *)
Theorem ensurePositions_persists_once (puzzles : list PuzzleDefinition)
    (st : CanvasState) :
  (forall pz, pz ∈ puzzles ->
     positions st !! pz_id pz = None -> inherited (pz_id pz) = false ->
     emitted (ensurePositions puzzles st)
     = emitted st
       ++ [(positions (ensurePositions puzzles st), connections st)])
  /\ ((forall pz, pz ∈ puzzles ->
         is_Some (positions st !! pz_id pz) \/ inherited (pz_id pz) = true) ->
      ensurePositions puzzles st = st)
  /\ connections (ensurePositions puzzles st) = connections st
  /\ (forall k, is_Some (positions (ensurePositions puzzles st) !! k)
                <-> is_Some (positions st !! k)
                    \/ (k ∈ map pz_id puzzles /\ inherited k = false)).
Proof.
  split; [|split; [|split]].
  - intros pz Hin Hnone Hinh. unfold ensurePositions.
    destruct (placeMissing 0 puzzles (positions st, false))
      as [newPositions changed] eqn:E.
    assert (Hc : changed = true).
    { pose proof (proj2 (placeMissing_flag puzzles 0 (positions st))) as Hf.
      rewrite E in Hf. apply Hf. exists pz. split; [done|].
      by apply lacksPosition_true. }
    by rewrite Hc.
  - intros Hall. unfold ensurePositions.
    rewrite (placeMissing_all_placed puzzles 0 (positions st) false); [done|].
    intros pz Hin. by apply lacksPosition_false, Hall.
  - unfold ensurePositions.
    destruct (placeMissing 0 puzzles (positions st, false)) as [newPositions changed].
    by destruct changed.
  - intros k. rewrite ensurePositions_positions.
    destruct (decide (k ∈ map pz_id puzzles)) as [Hin|Hout].
    + destruct (positions st !! k) as [v|] eqn:Hk.
      * rewrite (placeMissing_keeps _ _ _ _ _ _ Hk). split; [by left|by eexists].
      * destruct (inherited k) eqn:Hinh.
        -- rewrite placeMissing_skips_inherited by done.
           split; [intros [? ?]; done|].
           intros [[? ?]|[_ ?]]; done.
        -- split; [by right|]. intros _.
           apply list_elem_of_fmap in Hin as (pz & -> & Hin).
           by apply placeMissing_covers.
    + rewrite placeMissing_untouched by exact Hout. tauto.
Qed.

Lemma ensurePositions_persists_once_witness :
  emitted (ensurePositions threeNodes dragSample)
  = emitted dragSample
    ++ [(positions (ensurePositions threeNodes dragSample), connections dragSample)]
  /\ ensurePositions [mkPuzzle "a" "A"; mkPuzzle "constructor" "C"] dragSample
     = dragSample.
Proof.
  split.
  - apply (proj1 (ensurePositions_persists_once threeNodes dragSample)
             (mkPuzzle "n2" "second")).
    + apply list_elem_of_further, list_elem_of_here.
    + reflexivity.
    + reflexivity.
  - apply (proj1 (proj2 (ensurePositions_persists_once
                           [mkPuzzle "a" "A"; mkPuzzle "constructor" "C"]
                           dragSample))).
    intros pz Hin.
    apply elem_of_cons in Hin as [-> | Hin]; [left; by eexists|].
    apply elem_of_cons in Hin as [-> | Hin]; [right; reflexivity|].
    by apply elem_of_nil in Hin.
Defined.

(** * Custom attribute values *)

Section AttributeValues.

Implicit Types (values : list CustomAttributeValue) (v : AttrValue).

Lemma findAttribute_cons a x values :
  findAttribute a (x :: values)
  = if decide (attributeId x = a) then Some (0%nat, x)
    else prod_map S (λ y, y) <$> findAttribute a values.
Proof.
  unfold findAttribute. cbn [list_find]. by destruct (decide (attributeId x = a)).
Qed.

Lemma setAttributeValue_nil a v : setAttributeValue a v (Some []) = [mkAttributeValue a v].
Proof. reflexivity. Qed.

Lemma setAttributeValue_cons a v x values :
  setAttributeValue a v (Some (x :: values))
  = if decide (attributeId x = a)
    then mkAttributeValue (attributeId x) v :: values
    else x :: setAttributeValue a v (Some values).
Proof.
  unfold setAttributeValue. cbv zeta. cbn [default from_option Datatypes.id]. rewrite findAttribute_cons.
  destruct (decide (attributeId x = a)) as [Heq|Hne]; [done|].
  destruct (findAttribute a values) as [[idx y]|]; done.
Qed.

Lemma attributeValue_cons a x values :
  attributeValue a (Some (x :: values))
  = if decide (attributeId x = a) then Some (value x)
    else attributeValue a (Some values).
Proof.
  unfold attributeValue. cbn [default from_option Datatypes.id]. rewrite findAttribute_cons.
  destruct (decide (attributeId x = a)); [done|].
  by destruct (findAttribute a values) as [[idx y]|].
Qed.

Lemma attributeValue_None a values :
  attributeValue a (Some values) = None <-> a ∉ map attributeId values.
Proof.
  induction values as [|x values IH].
  - split; [intros _ Hin; by apply elem_of_nil in Hin | done].
  - rewrite attributeValue_cons. cbn [map]. rewrite not_elem_of_cons.
    destruct (decide (attributeId x = a)) as [Heq|Hne].
    + split; [done|]. intros [Hne _]. by destruct Hne.
    + rewrite IH. split; [intros H; split; [congruence | done] | tauto].
Qed.

Lemma setAttributeValue_some a v values :
  attributeValue a (Some (setAttributeValue a v (Some values))) = Some v.
Proof.
  induction values as [|x values IH].
  - rewrite setAttributeValue_nil, attributeValue_cons. cbn [attributeId].
    by rewrite decide_True.
  - rewrite setAttributeValue_cons.
    destruct (decide (attributeId x = a)) as [Heq|Hne];
      rewrite attributeValue_cons; cbn [attributeId value].
    + by rewrite decide_True.
    + by rewrite decide_False.
Qed.

Lemma setAttributeValue_other a b v values :
  a <> b ->
  attributeValue b (Some (setAttributeValue a v (Some values)))
  = attributeValue b (Some values).
Proof.
  intros Hab. induction values as [|x values IH].
  - rewrite setAttributeValue_nil, attributeValue_cons. cbn [attributeId].
    by rewrite decide_False.
  - rewrite setAttributeValue_cons.
    destruct (decide (attributeId x = a)) as [Heq|Hne];
      rewrite !attributeValue_cons; cbn [attributeId value].
    + rewrite !decide_False by congruence. done.
    + by rewrite IH.
Qed.

Lemma setAttributeValue_ids a v values :
  map attributeId (setAttributeValue a v (Some values))
  = if bool_decide (a ∈ map attributeId values)
    then map attributeId values
    else map attributeId values ++ [a].
Proof.
  induction values as [|x values IH].
  - rewrite setAttributeValue_nil. cbn [map app].
    rewrite bool_decide_eq_false_2; [done|]. apply not_elem_of_nil.
  - rewrite setAttributeValue_cons. cbn [map].
    destruct (decide (attributeId x = a)) as [Heq|Hne]; cbn [map attributeId].
    + rewrite bool_decide_eq_true_2; [done|]. rewrite Heq. apply list_elem_of_here.
    + rewrite IH.
      assert (Hiff : bool_decide (a ∈ attributeId x :: map attributeId values)
                     = bool_decide (a ∈ map attributeId values)).
      { apply bool_decide_ext. rewrite elem_of_cons.
        split; [intros [?|?]; [congruence|done] | by right]. }
      rewrite Hiff. by destruct (bool_decide (a ∈ map attributeId values)).
Qed.

(** X22.  Writing the value of an attribute makes the editor read that value
    back, leaves what it reads for every other attribute, keeps one entry
    per attribute and adds an entry only for an attribute that had none;
    a puzzle without any stored values is treated as one with an empty
    list. *)
Theorem setAttributeValue_upsert (a : string) (v : AttrValue)
    (stored : option (list CustomAttributeValue)) :
  let values' := setAttributeValue a v stored in
  attributeValue a (Some values') = Some v
  /\ (forall b, a <> b -> attributeValue b (Some values') = attributeValue b stored)
  /\ (NoDup (map attributeId (default [] stored)) -> NoDup (map attributeId values'))
  /\ length values'
     = (length (default [] stored)
        + if bool_decide (a ∈ map attributeId (default [] stored)) then 0 else 1)%nat
  /\ setAttributeValue a v None = [mkAttributeValue a v].
Proof.
  assert (Hdef : forall b, attributeValue b stored = attributeValue b (Some (default [] stored))).
  { intros b. by destruct stored. }
  assert (Hset : setAttributeValue a v stored
                 = setAttributeValue a v (Some (default [] stored))).
  { by destruct stored. }
  intros values'. subst values'. rewrite Hset.
  split; [apply setAttributeValue_some|].
  split; [intros b Hab; rewrite Hdef; by apply setAttributeValue_other|].
  split; [|split; [|done]].
  - intros Hnd. rewrite setAttributeValue_ids.
    destruct (bool_decide (a ∈ map attributeId (default [] stored))) eqn:Hin; [done|].
    apply bool_decide_eq_false in Hin.
    apply NoDup_app. split; [done|]. split; [|apply NoDup_singleton].
    intros x Hx Hx'. apply list_elem_of_singleton in Hx'. by subst.
  - rewrite <- (length_map attributeId (setAttributeValue _ _ _)).
    rewrite setAttributeValue_ids.
    destruct (bool_decide (a ∈ map attributeId (default [] stored)));
      rewrite ?length_app, length_map; cbn; lia.
Qed.

Lemma setAttributeValue_upsert_witness :
  NoDup (map attributeId
           (setAttributeValue "mood" (VText "calm")
              (Some [mkAttributeValue "size" (VNumber (int 3));
                     mkAttributeValue "mood" (VText "tense")]))).
Proof.
  apply (setAttributeValue_upsert "mood" (VText "calm")
           (Some [mkAttributeValue "size" (VNumber (int 3));
                  mkAttributeValue "mood" (VText "tense")])).
  apply (bool_decide_unpack _). by vm_compute.
Defined.

(** *** Select options *)

Lemma toggleOption_elem opt (arr : list string) x :
  x ∈ toggleOption opt arr
  <-> if decide (x = opt) then opt ∉ arr else x ∈ arr.
Proof.
  unfold toggleOption.
  destruct (bool_decide (opt ∈ arr)) eqn:Hin.
  - apply bool_decide_eq_true in Hin.
    rewrite list_elem_of_In, filter_In, negb_true_iff, String.eqb_neq,
      <- list_elem_of_In.
    destruct (decide (x = opt)) as [->|Hne]; tauto.
  - apply bool_decide_eq_false in Hin. rewrite elem_of_app, list_elem_of_singleton.
    destruct (decide (x = opt)) as [->|Hne]; tauto.
Qed.

Lemma filter_absent opt (arr : list string) :
  opt ∉ arr -> List.filter (λ i, negb (String.eqb i opt)) arr = arr.
Proof.
  induction arr as [|x arr IH]; [done|]. intros Hout.
  apply not_elem_of_cons in Hout as [Hne Hout]. cbn [List.filter].
  assert (Hx : String.eqb x opt = false) by (apply String.eqb_neq; congruence).
  rewrite Hx. cbn [negb]. by rewrite IH.
Qed.

(** X23.  A click on an option selects it when it was not selected and
    deselects it when it was, and changes the state of no other option; a
    second click gives back the same set of options, and the same list when
    the option was not selected to begin with.  Other attributes are not
    touched. *)
Theorem selectOptionClicked_toggles (a opt : string)
    (stored : option (list CustomAttributeValue)) :
  let before := asItems (default (VItems []) (attributeValue a stored)) in
  let once := selectOptionClicked a opt stored in
  let twice := selectOptionClicked a opt (Some once) in
  attributeValue a (Some once) = Some (VItems (toggleOption opt before))
  /\ (opt ∈ toggleOption opt before <-> opt ∉ before)
  /\ (forall x, x <> opt -> (x ∈ toggleOption opt before <-> x ∈ before))
  /\ (forall b, a <> b -> attributeValue b (Some once) = attributeValue b stored)
  /\ (exists after,
        attributeValue a (Some twice) = Some (VItems after)
        /\ (forall x, x ∈ after <-> x ∈ before)
        /\ (opt ∉ before -> after = before)).
Proof.
  intros before once twice.
  assert (Hdef : forall b, attributeValue b stored = attributeValue b (Some (default [] stored)))
    by (intros b; by destruct stored).
  assert (Hset : forall w, setAttributeValue a w stored
                           = setAttributeValue a w (Some (default [] stored)))
    by (intros w; by destruct stored).
  assert (Honce : attributeValue a (Some once) = Some (VItems (toggleOption opt before))).
  { subst once. unfold selectOptionClicked. fold before.
    rewrite Hset. apply setAttributeValue_some. }
  split; [exact Honce|].
  split; [rewrite toggleOption_elem; by rewrite decide_True|].
  split; [intros x Hne; rewrite toggleOption_elem; by rewrite decide_False|].
  split.
  { intros b Hab. subst once. unfold selectOptionClicked.
    rewrite Hset, Hdef. by apply setAttributeValue_other. }
  exists (toggleOption opt (toggleOption opt before)). split; [|split].
  - subst twice. unfold selectOptionClicked at 1. rewrite Honce.
    cbn [default from_option Datatypes.id asItems]. apply setAttributeValue_some.
  - intros x. rewrite toggleOption_elem.
    destruct (decide (x = opt)) as [->|Hne].
    + rewrite toggleOption_elem, decide_True by done.
      destruct (decide (opt ∈ before)); tauto.
    + rewrite toggleOption_elem. by rewrite decide_False.
  - intros Hout. unfold toggleOption at 2.
    rewrite bool_decide_eq_false_2 by exact Hout.
    unfold toggleOption.
    rewrite bool_decide_eq_true_2
      by (apply elem_of_app; right; apply list_elem_of_here).
    rewrite List.filter_app. cbn [List.filter].
    rewrite String.eqb_refl. cbn [negb]. rewrite filter_absent by exact Hout.
    apply app_nil_r.
Qed.

End AttributeValues.

(** *** Uploaded images *)

Section Upload.

Implicit Types (h : gmap nat CustomAttributeValue) (refs : list nat) (u : UploadState).

Lemma findEntry_cons b h r refs :
  findEntry b h (r :: refs)
  = if decide (attributeId <$> h !! r = Some b) then Some (0%nat, r)
    else prod_map S (λ y, y) <$> findEntry b h refs.
Proof.
  unfold findEntry. cbn [list_find].
  by destruct (decide (attributeId <$> h !! r = Some b)).
Qed.

Lemma entriesOf_cons h r o refs :
  h !! r = Some o -> entriesOf h (r :: refs) = o :: entriesOf h refs.
Proof. intros Ho. unfold entriesOf. cbn [omap list_omap]. by rewrite Ho. Qed.

Lemma entriesOf_snoc h r o refs :
  h !! r = Some o -> entriesOf h (refs ++ [r]) = entriesOf h refs ++ [o].
Proof.
  intros Ho. induction refs as [|r0 refs IH].
  - cbn [app]. by rewrite (entriesOf_cons _ _ o).
  - unfold entriesOf in *. cbn [app omap list_omap].
    destruct (h !! r0); by rewrite IH.
Qed.

(** What the editor shows is the value of the entry [findIndex] finds. *)
Lemma attributeValue_entriesOf b h refs :
  Forall (λ r, is_Some (h !! r)) refs ->
  attributeValue b (Some (entriesOf h refs))
  = match findEntry b h refs with
    | Some (_, r) => value <$> h !! r
    | None => None
    end.
Proof.
  unfold attributeValue. cbn [default from_option Datatypes.id].
  induction 1 as [|r refs [o Ho] _ IH]; [done|].
  rewrite (entriesOf_cons _ _ o) by done.
  rewrite findAttribute_cons, findEntry_cons, Ho.
  cbn [fmap option_fmap option_map].
  destruct (decide (attributeId o = b)) as [Heq|Hne].
  - rewrite decide_True by congruence. cbn. by rewrite Ho.
  - rewrite decide_False by congruence.
    rewrite <- option_fmap_compose.
    transitivity ((λ found, value found.2) <$> findAttribute b (entriesOf h refs));
      [by destruct (findAttribute b (entriesOf h refs)) as [[? ?]|]|].
    rewrite IH. by destruct (findEntry b h refs) as [[? ?]|].
Qed.

(** [findIndex] reads the attribute identifiers only. *)
Lemma findEntry_ext b h h' refs :
  (forall r, r ∈ refs -> attributeId <$> h' !! r = attributeId <$> h !! r) ->
  findEntry b h' refs = findEntry b h refs.
Proof.
  induction refs as [|r refs IH]; intros Hsame; [done|].
  rewrite !findEntry_cons, (Hsame r) by apply list_elem_of_here.
  rewrite IH; [done|]. intros r' Hin. by apply Hsame, list_elem_of_further.
Qed.

Lemma findEntry_Some b h refs idx r :
  findEntry b h refs = Some (idx, r) ->
  r ∈ refs /\ attributeId <$> h !! r = Some b.
Proof.
  unfold findEntry. intros Hfind.
  apply list_find_Some in Hfind as (Hlook & Hid & _).
  split; [by eapply list_elem_of_lookup_2|done].
Qed.

Lemma findEntry_snoc b h refs r :
  findEntry b h (refs ++ [r])
  = match findEntry b h refs with
    | Some found => Some found
    | None =>
        if decide (attributeId <$> h !! r = Some b)
        then Some (length refs, r) else None
    end.
Proof.
  induction refs as [|r0 refs IH].
  - cbn [app length]. rewrite findEntry_cons.
    by destruct (decide (attributeId <$> h !! r = Some b)).
  - cbn [app length]. rewrite !findEntry_cons.
    destruct (decide (attributeId <$> h !! r0 = Some b)); [done|].
    rewrite IH. destruct (findEntry b h refs) as [[? ?]|]; [done|].
    by destruct (decide (attributeId <$> h !! r = Some b)).
Qed.

Variables (a : string) (captured : option (list nat)).

(** One finished read when the captured array holds an entry of the
    attribute: the entry object is written, the array sent is the
    captured one. *)
Lemma attrImageLoaded_found base64 u idx r o :
  findEntry a (entryStore u) (default [] captured) = Some (idx, r) ->
  entryStore u !! r = Some o ->
  attrImageLoaded a base64 captured u
  = {| entryStore :=
         <[r := {| attributeId := attributeId o;
                   value := VItems (asItems (value o) ++ [base64]) |}]>
           (entryStore u);
       updatesSent := updatesSent u ++ [default [] captured] |}.
Proof.
  intros Hfind Ho. unfold attrImageLoaded. rewrite Hfind, Ho.
  cbn [fmap option_fmap option_map default from_option Datatypes.id compose].
  f_equal. apply map_eq. intros k.
  destruct (decide (k = r)) as [->|Hne].
  - by rewrite lookup_alter_eq, lookup_insert_eq, Ho.
  - by rewrite lookup_alter_ne, lookup_insert_ne.
Qed.

(** One finished read when it has none: a new entry object is pushed to
    a copy of the captured array. *)
Lemma attrImageLoaded_missing base64 u :
  findEntry a (entryStore u) (default [] captured) = None ->
  attrImageLoaded a base64 captured u
  = {| entryStore :=
         <[fresh (dom (entryStore u))
             := {| attributeId := a; value := VItems [base64] |}]>
           (entryStore u);
       updatesSent :=
         updatesSent u ++ [default [] captured ++ [fresh (dom (entryStore u))]] |}.
Proof. intros Hfind. unfold attrImageLoaded. by rewrite Hfind. Qed.

Lemma attrImageLoaded_sends base64 u :
  length (updatesSent (attrImageLoaded a base64 captured u))
  = S (length (updatesSent u)).
Proof.
  unfold attrImageLoaded.
  destruct (findEntry a (entryStore u) (default [] captured)) as [[idx r]|];
    cbn [updatesSent]; rewrite length_app; cbn [length]; lia.
Qed.

Lemma imagesLoaded_sends (loaded : list string) : forall u,
  length (updatesSent
            (foldl (λ acc base64, attrImageLoaded a base64 captured acc) u loaded))
  = (length (updatesSent u) + length loaded)%nat.
Proof.
  induction loaded as [|x l IH]; intros u; [cbn; lia|].
  cbn [foldl length]. rewrite IH, attrImageLoaded_sends. lia.
Qed.

(** With an entry in the captured array every read finds that entry
    again, however many reads came before: the images pile up in it. *)
Lemma imagesLoaded_found (loaded : list string) : forall u idx r o,
  loaded <> [] ->
  findEntry a (entryStore u) (default [] captured) = Some (idx, r) ->
  entryStore u !! r = Some o ->
  let u' := foldl (λ acc base64, attrImageLoaded a base64 captured acc) u loaded in
  entryStore u'
  = <[r := {| attributeId := attributeId o;
              value := VItems (asItems (value o) ++ loaded) |}]> (entryStore u)
  /\ last (updatesSent u') = Some (default [] captured).
Proof.
  induction loaded as [|x l IH]; intros u idx r o Hne Hfind Ho; [done|].
  cbn [foldl]. rewrite (attrImageLoaded_found x u idx r o Hfind Ho).
  set (o1 := {| attributeId := attributeId o;
                value := VItems (asItems (value o) ++ [x]) |}).
  set (u1 := {| entryStore := <[r := o1]> (entryStore u);
                updatesSent := updatesSent u ++ [default [] captured] |}).
  destruct l as [|y l'].
  - cbn [foldl]. split; [done|]. subst u1. cbn [updatesSent]. apply last_snoc.
  - assert (Hfind1 : findEntry a (entryStore u1) (default [] captured)
                     = Some (idx, r)).
    { rewrite <- Hfind. apply findEntry_ext. intros k _. subst u1.
      cbn [entryStore]. destruct (decide (k = r)) as [->|Hkr].
      - by rewrite lookup_insert_eq, Ho.
      - by rewrite lookup_insert_ne. }
    assert (Ho1 : entryStore u1 !! r = Some o1)
      by (subst u1; cbn [entryStore]; by rewrite lookup_insert_eq).
    destruct (IH u1 idx r o1 ltac:(done) Hfind1 Ho1) as [Hstore Hlast].
    split; [|exact Hlast].
    rewrite Hstore. subst u1 o1. cbn [entryStore attributeId value asItems].
    rewrite insert_insert_eq. by rewrite <- app_assoc.
Qed.

(** Without one every read misses it again: what earlier reads pushed
    went to copies, the captured array and its objects are as they were. *)
Lemma imagesLoaded_missing h (loaded : list string) : forall u,
  Forall (λ r, is_Some (h !! r)) (default [] captured) ->
  findEntry a h (default [] captured) = None ->
  h ⊆ entryStore u ->
  h ⊆ entryStore
        (foldl (λ acc base64, attrImageLoaded a base64 captured acc) u loaded)
  /\ findEntry a (entryStore u) (default [] captured) = None.
Proof.
  assert (Hkeep : forall u,
            Forall (λ r, is_Some (h !! r)) (default [] captured) ->
            h ⊆ entryStore u ->
            findEntry a (entryStore u) (default [] captured)
            = findEntry a h (default [] captured)).
  { intros u Hvalid Hsub. apply findEntry_ext. intros r Hin.
    rewrite Forall_forall in Hvalid. destruct (Hvalid r Hin) as [o Ho].
    by rewrite Ho, (lookup_weaken _ _ _ _ Ho Hsub). }
  induction loaded as [|x l IH]; intros u Hvalid Hnone Hsub.
  - cbn [foldl]. split; [done|]. by rewrite Hkeep.
  - assert (Hu : findEntry a (entryStore u) (default [] captured) = None)
      by by rewrite Hkeep.
    split; [|exact Hu]. cbn [foldl]. rewrite (attrImageLoaded_missing x u Hu).
    apply IH; [done..|]. cbn [entryStore].
    apply insert_subseteq_r; [|done].
    eapply lookup_weaken_None; [|exact Hsub].
    apply not_elem_of_dom, is_fresh.
Qed.

(** X24.  One choice of files for an image attribute, the reads finishing
    in the order [loaded], then [lastImg], and no other edit in between.
    When the puzzle had an entry for the attribute, the puzzle stored in
    the end shows the images it had followed by all the new ones.  When it
    had none, each read starts again from the entry-less puzzle, and only
    the image read last is stored.  Other attributes show what they
    showed, one update is sent per file, and without a file list nothing
    happens. *)
Theorem handleAttrImageUpload_effect (loaded : list string) (lastImg : string)
    (h : gmap nat CustomAttributeValue) :
  Forall (λ r, is_Some (h !! r)) (default [] captured) ->
  let stored := Some (entriesOf h (default [] captured)) in
  let u' := handleAttrImageUpload (Some (loaded ++ [lastImg])) captured a
              (mkUploadState h []) in
  (forall v, attributeValue a stored = Some v ->
     attributeValue a (storedAfter u')
     = Some (VItems (asItems v ++ loaded ++ [lastImg])))
  /\ (attributeValue a stored = None ->
      attributeValue a (storedAfter u') = Some (VItems [lastImg]))
  /\ (forall b, b <> a ->
        attributeValue b (storedAfter u') = attributeValue b stored)
  /\ length (updatesSent u') = S (length loaded)
  /\ handleAttrImageUpload None captured a (mkUploadState h [])
     = mkUploadState h [].
Proof.
  intros Hvalid stored u'. subst stored.
  set (refs := default [] captured) in *.
  assert (Hbefore : forall b,
            attributeValue b (Some (entriesOf h refs))
            = match findEntry b h refs with
              | Some (_, r) => value <$> h !! r
              | None => None
              end)
    by (intros b; by apply attributeValue_entriesOf).
  assert (Hlen : length (updatesSent u') = S (length loaded)).
  { subst u'. cbn [handleAttrImageUpload]. rewrite imagesLoaded_sends.
    cbn [updatesSent length]. rewrite length_app. cbn [length]. lia. }
  assert (Hcases :
    (exists idx r o,
        findEntry a h refs = Some (idx, r) /\ h !! r = Some o
        /\ storedAfter u'
           = Some (entriesOf
                     (<[r := {| attributeId := attributeId o;
                                value := VItems (asItems (value o)
                                                 ++ loaded ++ [lastImg]) |}]> h)
                     refs))
    \/ (findEntry a h refs = None
        /\ exists h' r',
             h ⊆ h' /\ h' !! r' = None
             /\ storedAfter u'
                = Some (entriesOf
                          (<[r' := {| attributeId := a;
                                      value := VItems [lastImg] |}]> h')
                          (refs ++ [r'])))).
  { destruct (findEntry a h refs) as [[idx r]|] eqn:Hfind.
    - left. destruct (findEntry_Some _ _ _ _ _ Hfind) as [Hin _].
      rewrite Forall_forall in Hvalid. destruct (Hvalid r Hin) as [o Ho].
      exists idx, r, o. split; [done|]. split; [done|].
      destruct (imagesLoaded_found (loaded ++ [lastImg]) (mkUploadState h [])
                  idx r o) as [Hstore Hlast];
        [by destruct loaded|exact Hfind|exact Ho|].
      subst u'. unfold storedAfter, handleAttrImageUpload.
      rewrite Hlast, Hstore. reflexivity.
    - right. split; [done|].
      destruct (imagesLoaded_missing h loaded (mkUploadState h []))
        as [Hsub _]; [done..|].
      set (un := foldl (λ acc base64, attrImageLoaded a base64 captured acc)
                   (mkUploadState h []) loaded) in *.
      destruct (imagesLoaded_missing h [] un) as [_ Hnone]; [done..|].
      exists (entryStore un), (fresh (dom (entryStore un))).
      split; [done|]. split; [apply not_elem_of_dom, is_fresh|].
      subst u'. unfold storedAfter, handleAttrImageUpload.
      rewrite foldl_snoc. fold un.
      rewrite (attrImageLoaded_missing lastImg un Hnone).
      cbn [updatesSent entryStore]. by rewrite last_snoc. }
  assert (Hreplace : forall b r o o',
            h !! r = Some o -> attributeId o' = attributeId o ->
            findEntry b (<[r := o']> h) refs = findEntry b h refs).
  { intros b r o o' Ho Hid. apply findEntry_ext. intros k _.
    destruct (decide (k = r)) as [->|Hkr].
    - rewrite lookup_insert_eq, Ho. cbn. by rewrite Hid.
    - by rewrite lookup_insert_ne. }
  assert (Hgrow : forall b h' r' new,
            h ⊆ h' -> h' !! r' = None ->
            findEntry b (<[r' := new]> h') refs = findEntry b h refs
            /\ Forall (λ r, is_Some (<[r' := new]> h' !! r)) (refs ++ [r'])
            /\ forall r, r ∈ refs -> <[r' := new]> h' !! r = h !! r).
  { intros b h' r' new Hsub Hfresh.
    assert (Hsame : forall r, r ∈ refs -> <[r' := new]> h' !! r = h !! r).
    { intros r Hin. rewrite Forall_forall in Hvalid.
      destruct (Hvalid r Hin) as [o Ho].
      rewrite Ho. apply lookup_insert_Some. right. split.
      - intros ->. rewrite (lookup_weaken _ _ _ _ Ho Hsub) in Hfresh. done.
      - by apply (lookup_weaken _ _ _ _ Ho Hsub). }
    split; [|split; [|exact Hsame]].
    - apply findEntry_ext. intros r Hin. by rewrite Hsame.
    - apply Forall_app. split.
      + apply Forall_forall. intros r Hin. rewrite Hsame by done.
        rewrite Forall_forall in Hvalid. by apply Hvalid.
      + apply Forall_cons. split; [|done]. by rewrite lookup_insert_eq. }
  split; [|split; [|split; [|split; [exact Hlen|done]]]].
  - intros v Hv. rewrite Hbefore in Hv.
    destruct Hcases as [(idx & r & o & Hfind & Ho & Hafter)|[Hnone _]];
      [|by rewrite Hnone in Hv].
    rewrite Hfind, Ho in Hv. injection Hv as <-.
    rewrite Hafter, attributeValue_entriesOf.
    + rewrite (Hreplace a r o) by done. rewrite Hfind.
      by rewrite lookup_insert_eq.
    + apply Forall_forall. intros k Hin. rewrite Forall_forall in Hvalid.
      destruct (decide (k = r)) as [->|Hkr];
        [by rewrite lookup_insert_eq|rewrite lookup_insert_ne by done].
      by apply Hvalid.
  - intros Hv. rewrite Hbefore in Hv.
    destruct Hcases as [(idx & r & o & Hfind & Ho & Hafter)
                       |(Hnone & h' & r' & Hsub & Hfresh & Hafter)].
    { rewrite Hfind, Ho in Hv. done. }
    destruct (Hgrow a h' r' {| attributeId := a; value := VItems [lastImg] |}
                Hsub Hfresh) as (Hfind' & Hvalid' & _).
    rewrite Hafter, attributeValue_entriesOf by exact Hvalid'.
    rewrite findEntry_snoc, Hfind', Hnone, lookup_insert_eq.
    cbn [fmap option_fmap option_map attributeId].
    rewrite decide_True by done. by rewrite lookup_insert_eq.
  - intros b Hba. rewrite Hbefore.
    destruct Hcases as [(idx & r & o & Hfind & Ho & Hafter)
                       |(Hnone & h' & r' & Hsub & Hfresh & Hafter)].
    + rewrite Hafter, attributeValue_entriesOf.
      * rewrite (Hreplace b r o) by done.
        destruct (findEntry b h refs) as [[ib rb]|] eqn:Hb; [|done].
        rewrite lookup_insert_ne; [done|]. intros <-.
        destruct (findEntry_Some _ _ _ _ _ Hb) as [_ Hidb].
        destruct (findEntry_Some _ _ _ _ _ Hfind) as [_ Hida]. congruence.
      * apply Forall_forall. intros k Hin. rewrite Forall_forall in Hvalid.
        destruct (decide (k = r)) as [->|Hkr];
          [by rewrite lookup_insert_eq|rewrite lookup_insert_ne by done].
        by apply Hvalid.
    + destruct (Hgrow b h' r' {| attributeId := a; value := VItems [lastImg] |}
                  Hsub Hfresh) as (Hfind' & Hvalid' & Hsame).
      rewrite Hafter, attributeValue_entriesOf by exact Hvalid'.
      rewrite findEntry_snoc, Hfind'.
      destruct (findEntry b h refs) as [[ib rb]|] eqn:Hb.
      * destruct (findEntry_Some _ _ _ _ _ Hb) as [Hin _]. by rewrite Hsame.
      * rewrite lookup_insert_eq. cbn [fmap option_fmap option_map attributeId].
        rewrite decide_False; [done|]. congruence.
Qed.

End Upload.

Lemma handleAttrImageUpload_effect_witness :
  attributeValue "pics"
    (storedAfter
       (handleAttrImageUpload (Some (["A"] ++ ["B"])) None "pics"
          (mkUploadState ∅ [])))
  = Some (VItems ["B"])
  /\ attributeValue "pics"
       (storedAfter
          (handleAttrImageUpload (Some (["A"] ++ ["B"])) (Some [0%nat]) "pics"
             (mkUploadState {[ 0%nat := mkAttributeValue "pics" (VItems ["Z"]) ]} [])))
     = Some (VItems (["Z"] ++ ["A"] ++ ["B"])).
Proof.
  split.
  - apply (proj1 (proj2 (handleAttrImageUpload_effect "pics" None ["A"] "B" ∅
                           ltac:(by apply Forall_nil)))).
    reflexivity.
  - apply (proj1 (handleAttrImageUpload_effect "pics" (Some [0%nat]) ["A"] "B"
                    {[ 0%nat := mkAttributeValue "pics" (VItems ["Z"]) ]}
                    ltac:(apply Forall_cons; split;
                            [by eexists|by apply Forall_nil]))
             (VItems ["Z"])).
    reflexivity.
Defined.


(** * The application shell and the canvas *)

Section FindAfterMap.

Context {A : Type} (key : A -> string).

(** Looking a record up by identifier after a map that keeps every
    identifier finds the image of what was found before. *)
Lemma find_by_id_map (f : A -> A) (wanted : option string) (l : list A) :
  (forall x, key (f x) = key x) ->
  snd <$> list_find (λ x, Some (key x) = wanted) (map f l)
  = f <$> (snd <$> list_find (λ x, Some (key x) = wanted) l).
Proof.
  intros Hkey. change (map f l) with (f <$> l). rewrite list_find_fmap.
  rewrite (list_find_ext _ (λ x, Some (key x) = wanted)).
  - by destruct (list_find (λ x, Some (key x) = wanted) l) as [[i x]|].
  - intros x. cbn. by rewrite Hkey.
Qed.

End FindAfterMap.

Lemma currentProject_after_canvas_update pid ps cs st :
  currentProject (handleUpdateCanvas pid ps cs st)
  = (λ p, if String.eqb (proj_id p) pid
          then withCanvasState p (mkCanvasSnapshot ps cs) else p)
      <$> currentProject st.
Proof.
  unfold currentProject, handleUpdateCanvas.
  cbn [projects saveToStorage activeProjectId].
  apply (find_by_id_map proj_id). intros p.
  by destruct (String.eqb (proj_id p) pid).
Qed.

(** X25.  What the canvas hands to [onUpdate] is what it starts from the next
    time it is opened on that project: the stored layout and connections
    come back, the node list is the same, and projects with another
    identifier are not touched. *)
Theorem handleUpdateCanvas_roundtrip (ps : gmap string PosValue)
    (cs : list FlowConnection) (st : AppState) (p : Project) :
  currentProject st = Some p ->
  let st' := handleUpdateCanvas (proj_id p) ps cs st in
  (exists p',
      currentProject st' = Some p'
      /\ proj_id p' = proj_id p
      /\ canvasPuzzles p' = canvasPuzzles p
      /\ positions (openCanvas p') = ps
      /\ connections (openCanvas p') = cs)
  /\ (forall q, q ∈ projects st -> proj_id q <> proj_id p -> q ∈ projects st')
  /\ map proj_id (projects st') = map proj_id (projects st)
  /\ storage st' = Some (projects st', templates st').
Proof.
  intros Hcur st'. subst st'. split; [|split; [|split]].
  - exists (withCanvasState p (mkCanvasSnapshot ps cs)).
    rewrite currentProject_after_canvas_update, Hcur.
    cbn [fmap option_fmap option_map]. by rewrite String.eqb_refl.
  - intros q Hin Hne. unfold handleUpdateCanvas. cbn [projects saveToStorage].
    apply list_elem_of_fmap. exists q. split; [|done].
    apply String.eqb_neq in Hne. by rewrite Hne.
  - unfold handleUpdateCanvas. cbn [projects saveToStorage].
    rewrite map_map. apply map_ext. intros q.
    by destruct (String.eqb (proj_id q) (proj_id p)).
  - reflexivity.
Qed.

Lemma handleUpdateCanvas_roundtrip_witness :
  exists p',
    currentProject
      (handleUpdateCanvas "proj-1" (positions dragSample) [connOpens] sampleApp)
    = Some p'
    /\ proj_id p' = "proj-1"
    /\ canvasPuzzles p' = canvasPuzzles sampleProject
    /\ positions (openCanvas p') = positions dragSample
    /\ connections (openCanvas p') = [connOpens].
Proof.
  apply (handleUpdateCanvas_roundtrip (positions dragSample) [connOpens]
           sampleApp sampleProject).
  reflexivity.
Defined.

Lemma ensurePositions_noop pzs st :
  (forall pz, pz ∈ pzs -> lacksPosition (positions st) (pz_id pz) = false) ->
  ensurePositions pzs st = st.
Proof.
  intros Hall. unfold ensurePositions.
  by rewrite (placeMissing_all_placed pzs 0 (positions st) false Hall).
Qed.

Lemma ensurePositions_cases pzs st :
  ensurePositions pzs st = st
  \/ emitted (ensurePositions pzs st)
     = emitted st ++ [(positions (ensurePositions pzs st), connections st)]
     /\ connections (ensurePositions pzs st) = connections st.
Proof.
  unfold ensurePositions.
  destruct (placeMissing 0 pzs (positions st, false)) as [newPositions changed].
  destruct changed; [right | left]; done.
Qed.

(** X26.  Auto-placement is done once per node across sessions: when the
    updates of the placement pass are stored and the canvas is opened again
    on the project, it starts from the completed layout and a new pass has
    nothing to place. *)
Theorem canvas_session_places_once (st : AppState) (p : Project) :
  currentProject st = Some p ->
  let canvas := ensurePositions (canvasPuzzles p) (openCanvas p) in
  let st' := persistUpdates (proj_id p) (emitted canvas) st in
  exists p',
    currentProject st' = Some p'
    /\ canvasPuzzles p' = canvasPuzzles p
    /\ positions (openCanvas p') = positions canvas
    /\ connections (openCanvas p') = connections canvas
    /\ ensurePositions (canvasPuzzles p') (openCanvas p') = openCanvas p'.
Proof.
  intros Hcur canvas st'.
  assert (Hcover : forall pz, pz ∈ canvasPuzzles p ->
                     lacksPosition (positions canvas) (pz_id pz) = false).
  { intros pz Hin. subst canvas. rewrite ensurePositions_positions.
    by apply placeMissing_none_lacking. }
  destruct (ensurePositions_cases (canvasPuzzles p) (openCanvas p))
    as [Hsame | [Hem Hconn]]; fold canvas in Hsame || fold canvas in Hem, Hconn.
  - exists p. subst st'. rewrite Hsame. cbn [emitted openCanvas initialState].
    split; [exact Hcur|]. split; [done|]. split; [done|]. split; [done|].
    apply ensurePositions_noop. intros pz Hin. rewrite <- Hsame. by apply Hcover.
  - exists (withCanvasState p
              (mkCanvasSnapshot (positions canvas) (connections (openCanvas p)))).
    subst st'. rewrite Hem. unfold persistUpdates.
    change (emitted (openCanvas p)) with (@nil Update).
    cbn [foldl fst snd app].
    rewrite currentProject_after_canvas_update, Hcur.
    cbn [fmap option_fmap option_map]. rewrite String.eqb_refl.
    split; [done|]. split; [done|]. split; [done|].
    split; [by rewrite Hconn|].
    apply ensurePositions_noop. intros pz Hin. by apply Hcover.
Qed.

Lemma canvas_session_places_once_witness :
  exists p',
    currentProject
      (persistUpdates "proj-1"
         (emitted (ensurePositions (canvasPuzzles sampleProject)
                     (openCanvas sampleProject)))
         sampleApp)
    = Some p'
    /\ canvasPuzzles p' = canvasPuzzles sampleProject
    /\ positions (openCanvas p')
       = positions (ensurePositions (canvasPuzzles sampleProject)
                      (openCanvas sampleProject))
    /\ connections (openCanvas p')
       = connections (ensurePositions (canvasPuzzles sampleProject)
                        (openCanvas sampleProject))
    /\ ensurePositions (canvasPuzzles p') (openCanvas p') = openCanvas p'.
Proof.
  apply (canvas_session_places_once sampleApp sampleProject). reflexivity.
Defined.

(** ** Editing a puzzle *)

Lemma replacePuzzle_id u pz : pz_id (replacePuzzle u pz) = pz_id pz.
Proof.
  unfold replacePuzzle. destruct (String.eqb (pz_id pz) (pz_id u)) eqn:H; [|done].
  by apply String.eqb_eq in H.
Qed.

Lemma replacePuzzle_hit u pz : pz_id pz = pz_id u -> replacePuzzle u pz = u.
Proof. intros H. unfold replacePuzzle. apply String.eqb_eq in H. by rewrite H. Qed.

Lemma canvasPuzzles_replaced u p :
  canvasPuzzles
    (withChapters p
       (map (λ ch, withPuzzles ch (map (replacePuzzle u) (ch_puzzles ch)))
            (chapters p)))
  = map (replacePuzzle u) (canvasPuzzles p).
Proof.
  unfold canvasPuzzles. cbn [chapters withChapters].
  induction (chapters p) as [|ch chs IH]; [done|].
  cbn [map flat_map ch_puzzles withPuzzles]. by rewrite map_app, IH.
Qed.

(** X27.  Saving an edited puzzle never changes which nodes there are, their
    order, or any stored canvas layout; in a project view, every puzzle of
    the active project that carries the edited identifier is the edited
    puzzle afterwards; in the template editor the projects are not touched
    at all. *)
Theorem handleUpdatePuzzle_keeps_nodes (updated : PuzzleDefinition)
    (st : AppState) :
  let st' := handleUpdatePuzzle updated st in
  map (λ p, map pz_id (canvasPuzzles p)) (projects st')
  = map (λ p, map pz_id (canvasPuzzles p)) (projects st)
  /\ map canvasState (projects st') = map canvasState (projects st)
  /\ map proj_id (projects st') = map proj_id (projects st)
  /\ (bool_decide (view st = ViewTemplateEdit) && truthy (activeTemplateId st) = false ->
      truthy (activeProjectId st) = true ->
      forall p' pz,
        currentProject st' = Some p' -> pz ∈ canvasPuzzles p' ->
        pz_id pz = pz_id updated -> pz = updated)
  /\ (bool_decide (view st = ViewTemplateEdit) && truthy (activeTemplateId st) = true ->
      projects st' = projects st).
Proof.
  intros st'. subst st'. unfold handleUpdatePuzzle.
  destruct (bool_decide (view st = ViewTemplateEdit) && truthy (activeTemplateId st))
    eqn:Htpl.
  { cbn [projects saveToStorage]. repeat split; try done. }
  destruct (truthy (activeProjectId st)) eqn:Hact; cbn [negb].
  2:{ repeat split; try done. }
  cbn [projects saveToStorage].
  split; [|split; [|split; [|split; [|done]]]].
  - rewrite map_map. apply map_ext. intros p.
    destruct (bool_decide (Some (proj_id p) = activeProjectId st)); [|done].
    rewrite canvasPuzzles_replaced, map_map. apply map_ext. apply replacePuzzle_id.
  - rewrite map_map. apply map_ext. intros p.
    by destruct (bool_decide (Some (proj_id p) = activeProjectId st)).
  - rewrite map_map. apply map_ext. intros p.
    by destruct (bool_decide (Some (proj_id p) = activeProjectId st)).
  - intros _ _ p' pz Hcur Hin Hid.
    unfold currentProject in Hcur. cbn [projects activeProjectId saveToStorage] in Hcur.
    rewrite (find_by_id_map proj_id) in Hcur
      by (intros p; by destruct (bool_decide (Some (proj_id p) = activeProjectId st))).
    destruct (list_find (λ p, Some (proj_id p) = activeProjectId st) (projects st))
      as [[i p]|] eqn:Hfind; [|done].
    apply list_find_Some in Hfind as (_ & Hp & _).
    cbn [fmap option_fmap option_map snd] in Hcur.
    rewrite bool_decide_eq_true_2 in Hcur by exact Hp.
    injection Hcur as <-. rewrite canvasPuzzles_replaced in Hin.
    apply list_elem_of_fmap in Hin as (pz0 & -> & _).
    rewrite replacePuzzle_id in Hid. by apply replacePuzzle_hit.
Qed.

Lemma handleUpdatePuzzle_keeps_nodes_witness :
  map (λ p, map pz_id (canvasPuzzles p))
      (projects (handleUpdatePuzzle (mkPuzzle "n2" "renamed") sampleApp))
  = [["n1"; "n2"; "n3"]; []]
  /\ mkPuzzle "n2" "renamed"
     ∈ flat_map canvasPuzzles
         (projects (handleUpdatePuzzle (mkPuzzle "n2" "renamed") sampleApp)).
Proof.
  destruct (handleUpdatePuzzle_keeps_nodes (mkPuzzle "n2" "renamed") sampleApp)
    as (Hids & _).
  split; [rewrite Hids; reflexivity|].
  apply list_elem_of_further, list_elem_of_here.
Defined.

(** ** Moving a puzzle between chapters *)

Lemma findPuzzle_Some pid ch moved :
  findPuzzle pid ch = Some moved -> pz_id moved = pid /\ moved ∈ ch_puzzles ch.
Proof.
  unfold findPuzzle. intros H.
  destruct (list_find (λ item, pz_id item = pid) (ch_puzzles ch))
    as [[i x]|] eqn:Hfind; [|done].
  injection H as <-. apply list_find_Some in Hfind as (Hlook & Hid & _).
  split; [done|]. by eapply list_elem_of_lookup_2.
Qed.

Lemma findPuzzle_None pid ch :
  findPuzzle pid ch = None <-> pid ∉ map pz_id (ch_puzzles ch).
Proof.
  unfold findPuzzle. rewrite fmap_None, list_find_None, Forall_forall. split.
  - intros Hall Hin. apply list_elem_of_fmap in Hin as (pz & -> & Hin).
    by apply (Hall pz).
  - intros Hout pz Hin Hid. apply Hout. apply list_elem_of_fmap. by exists pz.
Qed.

Lemma puzzleToMove_Some pid ps moved :
  puzzleToMove pid ps = Some moved ->
  pz_id moved = pid
  /\ exists p ch, p ∈ ps /\ ch ∈ chapters p /\ moved ∈ ch_puzzles ch.
Proof.
  unfold puzzleToMove. intros H.
  apply last_Some_elem_of, list_elem_of_omap in H as (ch & Hch & Hfind).
  apply findPuzzle_Some in Hfind as [Hid Hin]. split; [done|].
  apply list_elem_of_In, in_flat_map in Hch as (p & Hp & Hch).
  exists p, ch. apply list_elem_of_In in Hp, Hch. done.
Qed.

Lemma puzzleToMove_None pid ps :
  puzzleToMove pid ps = None
  <-> forall p ch, p ∈ ps -> ch ∈ chapters p -> pid ∉ map pz_id (ch_puzzles ch).
Proof.
  unfold puzzleToMove. rewrite last_None. split.
  - intros Hnil p ch Hp Hch. apply findPuzzle_None.
    destruct (findPuzzle pid ch) as [moved|] eqn:Hfind; [|done].
    assert (Hin : moved ∈ omap (findPuzzle pid) (flat_map chapters ps)).
    { apply list_elem_of_omap. exists ch. split; [|done].
      apply list_elem_of_In, in_flat_map. exists p.
      apply list_elem_of_In in Hp, Hch. done. }
    rewrite Hnil in Hin. by apply elem_of_nil in Hin.
  - intros Hall.
    destruct (omap (findPuzzle pid) (flat_map chapters ps)) as [|moved l] eqn:E; [done|].
    assert (Hin : moved ∈ omap (findPuzzle pid) (flat_map chapters ps))
      by (rewrite E; apply list_elem_of_here).
    apply list_elem_of_omap in Hin as (ch & Hch & Hfind).
    apply list_elem_of_In, in_flat_map in Hch as (p & Hp & Hch).
    apply list_elem_of_In in Hp, Hch.
    pose proof (proj2 (findPuzzle_None pid ch) (Hall p ch Hp Hch)). congruence.
Qed.

(** The projects after a move, chapter by chapter. *)
Lemma handleMovePuzzle_projects pid target st moved :
  puzzleToMove pid (projects st) = Some moved ->
  projects (handleMovePuzzle pid target st)
  = map (λ p, withChapters p
                (map (λ ch, withPuzzles ch
                              (List.filter (otherPuzzle pid) (ch_puzzles ch)
                               ++ if String.eqb (ch_id ch) target
                                  then [moved] else []))
                     (chapters p)))
        (projects st).
Proof.
  intros Hmoved. unfold handleMovePuzzle. rewrite Hmoved.
  cbn [projects saveToStorage]. rewrite map_map. apply map_ext. intros p.
  unfold withChapters. cbn [chapters proj_id proj_name backgroundStory
    narrativeArc nodeTypes canvasState]. f_equal.
  rewrite map_map. apply map_ext. intros ch. cbn [ch_id withPuzzles].
  destruct (String.eqb (ch_id ch) target); [done|].
  by rewrite app_nil_r.
Qed.

(** X28.  Moving a puzzle that is in no chapter does nothing.  Otherwise the
    projects and their chapters stay what and where they were except for
    the puzzle lists: every chapter keeps its other puzzles in order, loses
    the puzzle, and gets it appended when its identifier is the target;
    the result is stored.  So when no chapter carries the target
    identifier the puzzle is in no chapter afterwards. *)
Theorem handleMovePuzzle_effect (pid target : string) (st : AppState) :
  let st' := handleMovePuzzle pid target st in
  ((forall p ch, p ∈ projects st -> ch ∈ chapters p ->
      pid ∉ map pz_id (ch_puzzles ch)) ->
   st' = st)
  /\ (forall moved,
        puzzleToMove pid (projects st) = Some moved ->
        pz_id moved = pid
        /\ (exists p ch, p ∈ projects st /\ ch ∈ chapters p
                         /\ moved ∈ ch_puzzles ch)
        /\ Forall2
             (λ p p',
                p' = withChapters p (chapters p')
                /\ Forall2
                     (λ ch ch',
                        ch' = withPuzzles ch (ch_puzzles ch')
                        /\ ch_puzzles ch'
                           = List.filter (otherPuzzle pid) (ch_puzzles ch)
                             ++ (if String.eqb (ch_id ch) target
                                 then [moved] else []))
                     (chapters p) (chapters p'))
             (projects st) (projects st')
        /\ templates st' = templates st
        /\ storage st' = Some (projects st', templates st)
        /\ (forall p' ch',
              p' ∈ projects st' -> ch' ∈ chapters p' ->
              exists p ch,
                p ∈ projects st /\ ch ∈ chapters p
                /\ proj_id p' = proj_id p /\ ch_id ch' = ch_id ch
                /\ ch_puzzles ch'
                   = List.filter (otherPuzzle pid) (ch_puzzles ch)
                     ++ (if String.eqb (ch_id ch) target then [moved] else [])
                /\ (ch_id ch' <> target -> pid ∉ map pz_id (ch_puzzles ch')))
        /\ ((forall p ch, p ∈ projects st -> ch ∈ chapters p -> ch_id ch <> target) ->
            forall p' ch', p' ∈ projects st' -> ch' ∈ chapters p' ->
                           pid ∉ map pz_id (ch_puzzles ch'))).
Proof.
  intros st'. split.
  - intros Habs. subst st'. unfold handleMovePuzzle.
    by rewrite (proj2 (puzzleToMove_None pid (projects st)) Habs).
  - intros moved Hmoved.
    destruct (puzzleToMove_Some _ _ _ Hmoved) as [Hid Hwhere].
    assert (Hgone : forall ch, pid ∉ map pz_id (List.filter (otherPuzzle pid) (ch_puzzles ch))).
    { intros ch Hin. apply list_elem_of_fmap in Hin as (pz & Hpz & Hin).
      apply list_elem_of_In, filter_In in Hin as [_ Hother].
      unfold otherPuzzle in Hother. apply negb_true_iff, String.eqb_neq in Hother.
      congruence. }
    assert (Himage : forall p' ch',
              p' ∈ projects st' -> ch' ∈ chapters p' ->
              exists p ch,
                p ∈ projects st /\ ch ∈ chapters p
                /\ proj_id p' = proj_id p /\ ch_id ch' = ch_id ch
                /\ ch_puzzles ch'
                   = List.filter (otherPuzzle pid) (ch_puzzles ch)
                     ++ (if String.eqb (ch_id ch) target then [moved] else [])
                /\ (ch_id ch' <> target -> pid ∉ map pz_id (ch_puzzles ch'))).
    { intros p' ch' Hp' Hch'. subst st'.
      rewrite (handleMovePuzzle_projects _ _ _ _ Hmoved) in Hp'.
      apply list_elem_of_fmap in Hp' as (p & -> & Hp).
      cbn [chapters withChapters] in Hch'.
      apply list_elem_of_fmap in Hch' as (ch & -> & Hch).
      exists p, ch. cbn [proj_id withChapters ch_id ch_puzzles withPuzzles].
      split; [done|]. split; [done|]. split; [done|]. split; [done|].
      split; [done|]. intros Hne. apply String.eqb_neq in Hne. rewrite Hne, app_nil_r.
      apply Hgone. }
    split; [done|]. split; [exact Hwhere|]. split.
    { subst st'. rewrite (handleMovePuzzle_projects _ _ _ _ Hmoved).
      apply Forall2_fmap_r, Forall_Forall2_diag, Forall_forall. intros p _.
      cbn [compose chapters withChapters]. split; [done|].
      apply Forall2_fmap_r, Forall_Forall2_diag, Forall_forall. intros ch _.
      by cbn [compose ch_puzzles withPuzzles]. }
    assert (Hsaved : templates st' = templates st
                     /\ storage st' = Some (projects st', templates st)).
    { subst st'. unfold handleMovePuzzle. by rewrite Hmoved. }
    split; [apply Hsaved|]. split; [apply Hsaved|]. split; [exact Himage|].
    intros Hnone p' ch' Hp' Hch'.
    destruct (Himage p' ch' Hp' Hch') as (p & ch & Hp & Hch & _ & Hcid & _ & Hlost).
    apply Hlost. rewrite Hcid. by apply (Hnone p ch).
Qed.

Lemma handleMovePuzzle_effect_witness :
  handleMovePuzzle "n9" "ch-2" sampleApp = sampleApp
  /\ (forall p' ch',
        p' ∈ projects (handleMovePuzzle "n2" "ch-7" sampleApp) ->
        ch' ∈ chapters p' -> "n2" ∉ map pz_id (ch_puzzles ch'))
  /\ (exists p' ch1 ch2,
        projects (handleMovePuzzle "n2" "ch-2" sampleApp) = [p'; emptyProject]
        /\ chapters p' = [ch1; ch2]
        /\ ch_puzzles ch1 = [mkPuzzle "n1" "first"]
        /\ ch_puzzles ch2 = [mkPuzzle "n3" "third"; mkPuzzle "n2" "second"]).
Proof.
  destruct (handleMovePuzzle_effect "n9" "ch-2" sampleApp) as [Hnoop _].
  destruct (handleMovePuzzle_effect "n2" "ch-7" sampleApp) as [_ Hlost].
  destruct (handleMovePuzzle_effect "n2" "ch-2" sampleApp) as [_ Hmove].
  assert (Hchapters : forall p ch, p ∈ projects sampleApp -> ch ∈ chapters p ->
                        ch = chapterOne \/ ch = chapterTwo).
  { intros p ch Hp Hch.
    apply elem_of_cons in Hp as [-> | Hp].
    - apply elem_of_cons in Hch as [-> | Hch]; [by left|].
      apply elem_of_cons in Hch as [-> | Hch]; [by right|].
      by apply elem_of_nil in Hch.
    - apply elem_of_cons in Hp as [-> | Hp]; [by apply elem_of_nil in Hch|].
      by apply elem_of_nil in Hp. }
  split; [|split].
  - apply Hnoop. intros p ch Hp Hch.
    destruct (Hchapters p ch Hp Hch) as [-> | ->];
      apply (bool_decide_unpack _); by vm_compute.
  - apply (Hlost (mkPuzzle "n2" "second") eq_refl).
    intros p ch Hp Hch. by destruct (Hchapters p ch Hp Hch) as [-> | ->].
  - destruct (Hmove (mkPuzzle "n2" "second") eq_refl) as (_ & _ & Hall & _).
    change (projects sampleApp) with [sampleProject; emptyProject] in Hall.
    apply Forall2_cons_inv_l in Hall as (p' & rest & [Hp' Hchs] & Hrest & Heq).
    apply Forall2_cons_inv_l in Hrest as (q' & rest' & [Hq' Hqchs] & Hnil & ->).
    apply Forall2_nil_inv_l in Hnil as ->.
    change (chapters emptyProject) with (@nil Chapter) in Hqchs.
    apply Forall2_nil_inv_l in Hqchs. rewrite Hqchs in Hq'.
    change (chapters sampleProject) with [chapterOne; chapterTwo] in Hchs.
    apply Forall2_cons_inv_l in Hchs as (ch1 & chs & [_ H1] & Hchs & Hc).
    apply Forall2_cons_inv_l in Hchs as (ch2 & chs' & [_ H2] & Hnil & ->).
    apply Forall2_nil_inv_l in Hnil as ->.
    exists p', ch1, ch2. rewrite Heq, Hq'. done.
Defined.

(** ** Adding a node *)

Lemma append_prefix_inj (pre s1 s2 : string) : pre +:+ s1 = pre +:+ s2 -> s1 = s2.
Proof.
  induction pre as [|c pre IH]; [done|]. cbn [String.append].
  intros H. injection H as H. by apply IH.
Qed.

Lemma puzzleId_inj t1 t2 : puzzleId t1 = puzzleId t2 -> t1 = t2.
Proof.
  unfold puzzleId. intros H. apply append_prefix_inj in H.
  by apply (inj pretty) in H.
Qed.

(** The identifiers [handleNewPuzzle] mints name no member of
    [Object.prototype]: a read of the positions object under one of them
    finds an entry or nothing. *)
Lemma puzzleId_not_inherited now : inherited (puzzleId now) = false.
Proof.
  unfold inherited, puzzleId. apply bool_decide_eq_false_2.
  unfold objectPrototypeMembers. cbn [String.append].
  intros Hin.
  repeat (apply elem_of_cons in Hin as [Heq | Hin]; [discriminate Heq|]).
  by apply elem_of_nil in Hin.
Qed.

Lemma appendPuzzle_image pid chId new ps p :
  p ∈ ps -> proj_id p = pid ->
  match targetChapter chId p with
  | None => p ∈ appendPuzzle pid chId new ps
  | Some tid =>
      withChapters p
        (map (λ ch, if String.eqb (ch_id ch) tid
                    then withPuzzles ch (ch_puzzles ch ++ [new]) else ch)
             (chapters p))
      ∈ appendPuzzle pid chId new ps
  end.
Proof.
  intros Hin Hid. unfold appendPuzzle.
  destruct (targetChapter chId p) as [tid|] eqn:Ht;
    apply list_elem_of_fmap; exists p; (split; [|done]);
    apply String.eqb_eq in Hid; by rewrite Hid, Ht.
Qed.

(** X29.  [handleNewPuzzle] returns an identifier made from the clock and, on the
    canvas, leaves the view and the active puzzle alone (elsewhere it opens
    the new puzzle).  Called without a chapter for a project whose first
    chapter has an identifier no other chapter shares, it appends the new
    node to that first chapter, so the node enters the canvas list right
    after the first chapter's nodes.  For a project without chapters the
    project stays as it is -- the returned identifier then names no node. *)
Theorem handleNewPuzzle_effect (now : N) (pid : string)
    (chapterId typeId : option string) (st : AppState) :
  let st' := (handleNewPuzzle now pid chapterId typeId st).1 in
  let newId := (handleNewPuzzle now pid chapterId typeId st).2 in
  newId = puzzleId now
  /\ (forall t, puzzleId t = puzzleId now -> t = now)
  /\ (view st = ViewCanvas ->
      view st' = ViewCanvas /\ activePuzzleId st' = activePuzzleId st)
  /\ (view st <> ViewCanvas ->
      view st' = ViewPuzzle /\ activePuzzleId st' = Some newId)
  /\ map proj_id (projects st') = map proj_id (projects st)
  /\ (forall p, p ∈ projects st -> proj_id p = pid -> chapters p = [] ->
        p ∈ projects st')
  /\ (forall p ch0 rest,
        p ∈ projects st -> proj_id p = pid ->
        chapters p = ch0 :: rest ->
        truthy chapterId = false -> ch_id ch0 <> "" ->
        (forall ch, ch ∈ rest -> ch_id ch <> ch_id ch0) ->
        exists p' new,
          p' ∈ projects st' /\ proj_id p' = pid /\ pz_id new = newId
          /\ canvasState p' = canvasState p
          /\ canvasPuzzles p'
             = ch_puzzles ch0 ++ [new] ++ flat_map ch_puzzles rest).
Proof.
  intros st' newId. subst st' newId. unfold handleNewPuzzle.
  cbn [fst snd pz_id].
  set (new := {| pz_id := puzzleId now; pz_name := _ |}).
  assert (Hprojects : forall b : bool,
    projects (if b
              then {| projects := projects (saveToStorage (appendPuzzle pid chapterId new (projects st)) (templates st) st);
                      templates := templates (saveToStorage (appendPuzzle pid chapterId new (projects st)) (templates st) st);
                      activeProjectId := activeProjectId (saveToStorage (appendPuzzle pid chapterId new (projects st)) (templates st) st);
                      activeChapterId := activeChapterId (saveToStorage (appendPuzzle pid chapterId new (projects st)) (templates st) st);
                      activePuzzleId := Some (puzzleId now);
                      activeTemplateId := activeTemplateId (saveToStorage (appendPuzzle pid chapterId new (projects st)) (templates st) st);
                      view := ViewPuzzle;
                      storage := storage (saveToStorage (appendPuzzle pid chapterId new (projects st)) (templates st) st) |}
              else saveToStorage (appendPuzzle pid chapterId new (projects st)) (templates st) st)
    = appendPuzzle pid chapterId new (projects st)).
  { by intros []. }
  split; [done|]. split; [intros t Ht; by apply puzzleId_inj|].
  split.
  { intros Hview. rewrite bool_decide_eq_false_2 by (intros H; by apply H). done. }
  split.
  { intros Hview. by rewrite bool_decide_eq_true_2 by exact Hview. }
  rewrite !Hprojects.
  split.
  { unfold appendPuzzle. rewrite map_map. apply map_ext. intros p.
    destruct (String.eqb (proj_id p) pid); [|done].
    by destruct (targetChapter chapterId p). }
  split.
  { intros p Hin Hid Hnil.
    pose proof (appendPuzzle_image pid chapterId new (projects st) p Hin Hid) as Himg.
    destruct (targetChapter chapterId p) as [tid|]; [|done].
    rewrite Hnil in Himg. cbn [map] in Himg.
    replace (withChapters p []) with p in Himg; [done|].
    destruct p. cbn [chapters] in Hnil. by subst. }
  intros p ch0 rest Hin Hid Hchs Hch Hne Huniq.
  pose proof (appendPuzzle_image pid chapterId new (projects st) p Hin Hid) as Himg.
  assert (Ht : targetChapter chapterId p = Some (ch_id ch0)).
  { unfold targetChapter. rewrite Hch, Hchs. unfold truthy.
    apply String.eqb_neq in Hne. by rewrite Hne. }
  rewrite Ht in Himg. eexists _, new. split; [exact Himg|].
  cbn [proj_id canvasState withChapters]. split; [done|]. split; [done|].
  split; [done|].
  unfold canvasPuzzles. cbn [chapters withChapters]. rewrite Hchs.
  cbn [map flat_map]. rewrite String.eqb_refl. cbn [ch_puzzles withPuzzles].
  rewrite <- app_assoc. f_equal. cbn [app]. f_equal.
  clear -Huniq. induction rest as [|ch rest IH]; [done|].
  cbn [map flat_map].
  assert (Hc : String.eqb (ch_id ch) (ch_id ch0) = false)
    by (apply String.eqb_neq, Huniq, list_elem_of_here).
  rewrite Hc, IH; [done|]. intros ch' Hin'. by apply Huniq, list_elem_of_further.
Qed.

Lemma handleNewPuzzle_effect_witness :
  exists p' new,
    p' ∈ projects (handleNewPuzzle 1700000000000 "proj-1" None None sampleApp).1
    /\ proj_id p' = "proj-1"
    /\ pz_id new = (handleNewPuzzle 1700000000000 "proj-1" None None sampleApp).2
    /\ canvasState p' = canvasState sampleProject
    /\ canvasPuzzles p'
       = ch_puzzles chapterOne ++ [new] ++ flat_map ch_puzzles [chapterTwo].
Proof.
  apply (proj2 (proj2 (proj2 (proj2 (proj2 (proj2
           (handleNewPuzzle_effect 1700000000000 "proj-1" None None sampleApp))))))
         sampleProject chapterOne [chapterTwo]); try done.
  - apply list_elem_of_here.
  - intros ch Hin. apply list_elem_of_singleton in Hin as ->. done.
Defined.

(** * A whole marquee gesture *)

(** X30.  Press on the background of an idle canvas, move, release away
    from the input sockets: the selection is what the marquee from the
    press point to the last pointer position selects, the rectangle is
    gone, and nothing was moved or handed to [onUpdate].  A release on an
    input socket is taken by the socket, which does nothing when no
    connection drag is under way: the rectangle stays and the marquee
    goes on. *)
Theorem marquee_gesture (puzzles : list PuzzleDefinition) (rect : DOMRect)
    (btn : Z) (x0 y0 : Qc) (e1 : MouseEvent) (now : N) (st : CanvasState) :
  btn <> 1%Z ->
  isPanning st = false ->
  truthy (draggingNodeId st) = false ->
  dragLine st = None ->
  let st2 :=
    handleMouseMove puzzles (Some rect) e1
      (mouseDown (Some rect) btn x0 y0 OnBackground st) in
  let st3 := mouseUp now OverCanvas st2 in
  selectedNodeIds st3
  = marqueeSelection puzzles st rect
      {| startX := x0; startY := y0; currentX := x0; currentY := y0 |} e1
  /\ selectionRect st3 = None
  /\ positions st3 = positions st
  /\ emitted st3 = emitted st
  /\ (forall nodeId,
        mouseUp now (OverInputSocket nodeId) st2 = st2
        /\ selectionRect st2
           = Some {| startX := x0; startY := y0;
                     currentX := clientX e1; currentY := clientY e1 |}).
Proof.
  intros Hbtn Hpan Hdrag Hdl st2 st3. subst st3 st2.
  cbn [mouseDown mouseUp].
  rewrite handleMouseDown_background by exact Hbtn.
  cbn [pressEvent clientX clientY].
  set (sr := {| startX := x0; startY := y0; currentX := x0; currentY := y0 |}).
  set (st1 := setSelectedNodeIds [] (setSelectionRect (Some sr) st)).
  assert (Hact : marqueeActive st1 sr) by (by repeat split).
  assert (Hsel := marquee_selected puzzles rect e1 st1 sr Hact).
  assert (Hmove : positions (handleMouseMove puzzles (Some rect) e1 st1) = positions st
                  /\ emitted (handleMouseMove puzzles (Some rect) e1 st1) = emitted st
                  /\ dragLine (handleMouseMove puzzles (Some rect) e1 st1) = None
                  /\ truthy (draggingNodeId (handleMouseMove puzzles (Some rect) e1 st1)) = false
                  /\ selectionRect (handleMouseMove puzzles (Some rect) e1 st1)
                     = Some {| startX := x0; startY := y0;
                               currentX := clientX e1; currentY := clientY e1 |}).
  { unfold handleMouseMove.
    change (isPanning st1) with (isPanning st).
    change (draggingNodeId st1) with (draggingNodeId st).
    change (dragLine st1) with (dragLine st).
    change (selectionRect st1) with (Some sr).
    rewrite Hpan, Hdrag, Hdl. cbn. by rewrite Hdrag. }
  destruct Hmove as (Hpos & Hem & Hdl2 & Hdrag2 & Hsr2).
  destruct (handleMouseUp_modes_off (handleMouseMove puzzles (Some rect) e1 st1))
    as (_ & _ & Hsr3 & _ & Hpos3 & _ & Hsel3 & _).
  split; [by rewrite Hsel3, Hsel|]. split; [exact Hsr3|].
  split; [by rewrite Hpos3|].
  split.
  - rewrite <- Hem.
    generalize dependent (handleMouseMove puzzles (Some rect) e1 st1).
    intros st2 _ _ _ Hdl2 Hdrag2 _ _ _ _.
    unfold handleMouseUp. rewrite Hdl2, Hdrag2.
    by destruct (isPanning st2), (selectionRect st2).
  - intros nodeId. split; [|exact Hsr2].
    unfold handleSocketMouseUp. by rewrite Hdl2.
Qed.

Lemma marquee_gesture_witness :
  selectedNodeIds
    (mouseUp 0 OverCanvas
       (handleMouseMove marqueeNodes (Some originRect) (leftButtonAt 500 400)
          (mouseDown (Some originRect) 0 (int 50) (int 50) OnBackground
             (setSelectionRect None marqueeSample))))
  = ["A"; "B"].
Proof.
  rewrite (proj1 (marquee_gesture marqueeNodes originRect 0 (int 50) (int 50)
                    (leftButtonAt 500 400) 0 (setSelectionRect None marqueeSample)
                    ltac:(done) eq_refl eq_refl eq_refl)).
  by vm_compute.
Defined.
